(** * Strudel snippet library: flat index and relevance-ranked search

    A shallow embedding of [StrudelSnippetLibrary]
    (src/strudel-snippet-library.js): the tree indexer [flattenSnippets],
    the query operations [getSnippet], [getSnippetsInFolder] and
    [searchSnippets] with [calculateRelevanceScore], and the properties
    the specification states about them; then [generateMenuStructure],
    [getSnippetsByCategory], [getCategories], [getRandomSnippet] and
    [getStats], and what the code shows about them.

    Modelling conventions.
    - A JavaScript string is a [string]; the texts are ASCII, on which
      [toLowerCase] maps the letters A-Z to a-z and nothing else.
    - A field that may be missing ([undefined]) is an [option].
    - A plain JavaScript object used as a map is the list of its own
      enumerable properties in [Object.entries] order, see [JsObject].
    - A call that may raise a [TypeError] returns an [outcome].
    - Scores are small integers, represented in [Z]. *)

From Stdlib Require Import ZArith String Ascii Lia Sorted.
From stdpp Require Import base list strings.

Set Default Proof Using "Type".

(** ** Outcomes of calls that may throw *)

Inductive outcome (A : Type) : Type :=
  | Returned (a : A)
  | Threw (e : string).
Arguments Returned {A} a.
Arguments Threw {A} e.

Definition bind {A B} (m : outcome A) (f : A → outcome B) : outcome B :=
  match m with
  | Returned a => f a
  | Threw e => Threw e
  end.

Notation "x ←! m ; k" := (bind m (λ x, k))
  (at level 100, m at next level, right associativity,
   format "x  ←!  m ;  '/' k").

(** Calling a string method on a value that is [undefined]. *)
Definition TypeError_undefined : string :=
  "TypeError: Cannot read properties of undefined".

(** ** String primitives *)

Module JsString.

Definition lower_char (c : ascii) : ascii :=
  let n := nat_of_ascii c in
  if (65 <=? n)%nat && (n <=? 90)%nat then ascii_of_nat (n + 32) else c.

(** [s.toLowerCase()] *)
Fixpoint toLowerCase (s : string) : string :=
  match s with
  | EmptyString => EmptyString
  | String c s' => String (lower_char c) (toLowerCase s')
  end.

(** [s.startsWith(p)] *)
Fixpoint startsWith (s p : string) : bool :=
  match p, s with
  | EmptyString, _ => true
  | String _ _, EmptyString => false
  | String a p', String b s' => bool_decide (a = b) && startsWith s' p'
  end.

(** [s.includes(sub)] *)
Fixpoint includes (s sub : string) : bool :=
  startsWith s sub ||
  match s with
  | EmptyString => false
  | String _ s' => includes s' sub
  end.

Definition slash : ascii := "/"%char.

(** [s.split('/')] *)
Fixpoint split (s : string) : list string :=
  match s with
  | EmptyString => [EmptyString]
  | String c s' =>
      if bool_decide (c = slash) then EmptyString :: split s'
      else match split s' with
           | [] => [String c EmptyString]
           | seg :: segs => String c seg :: segs
           end
  end.

(** [l.join('/')] *)
Fixpoint join (l : list string) : string :=
  match l with
  | [] => EmptyString
  | [a] => a
  | a :: l' => a +:+ String slash (join l')
  end.

(** [v.toLowerCase()] where [v] may be [undefined]. *)
Definition toLowerCase_of (v : option string) : outcome string :=
  match v with
  | Some s => Returned (toLowerCase s)
  | None => Threw TypeError_undefined
  end.

(** A name that can be a path segment: it holds no ['/']. *)
Fixpoint slash_free (s : string) : bool :=
  match s with
  | EmptyString => true
  | String c s' => negb (bool_decide (c = slash)) && slash_free s'
  end.

End JsString.
Import JsString.

(** ** Plain objects as ordered property lists *)

Module JsObject.

(** The value of a decimal digit string, most significant digit first. *)
Fixpoint digits_value (s : string) (acc : N) : option N :=
  match s with
  | EmptyString => Some acc
  | String c s' =>
      match Ascii.is_nat c with
      | Some d => digits_value s' (10 * acc + N.of_nat d)%N
      | None => None
      end
  end.

(** A property key is an array index when it is the canonical decimal
    form of an integer below 2^32 - 1.  Such keys are enumerated first,
    in ascending numeric order. *)
Definition array_index (k : string) : option N :=
  match k with
  | EmptyString => None
  | String "0"%char EmptyString => Some 0%N
  | String "0"%char _ => None
  | _ => match digits_value k 0 with
         | Some n => if (n <? 4294967295)%N then Some n else None
         | None => None
         end
  end.

Section Obj.
Context {V : Type}.

(** Own enumerable string-keyed properties, in enumeration order. *)
Definition obj : Type := list (string * V).

Definition Object_entries (o : obj) : list (string * V) := o.

Definition obj_has (k : string) (o : obj) : bool :=
  bool_decide (k ∈ o.*1).

(** Overwriting an existing property keeps its position. *)
Fixpoint obj_update (k : string) (v : V) (o : obj) : obj :=
  match o with
  | [] => []
  | (k', v') :: o' =>
      if decide (k' = k) then (k', v) :: o'
      else (k', v') :: obj_update k v o'
  end.

(** A new array-index key goes before the first key that is not a
    smaller array index. *)
Fixpoint obj_insert_index (n : N) (k : string) (v : V) (o : obj) : obj :=
  match o with
  | [] => [(k, v)]
  | (k', v') :: o' =>
      match array_index k' with
      | Some n' =>
          if (n' <? n)%N then (k', v') :: obj_insert_index n k v o'
          else (k, v) :: o
      | None => (k, v) :: o
      end
  end.

(** [o[k] = v] on an object created by [{}].  Assigning to
    ["__proto__"] runs the inherited setter: it replaces the
    prototype and creates no own property. *)
Definition obj_set (k : string) (v : V) (o : obj) : obj :=
  if decide (k = "__proto__") then o
  else if obj_has k o then obj_update k v o
  else match array_index k with
       | Some n => obj_insert_index n k v o
       | None => o ++ [(k, v)]
       end.

(** The own property [o[k]], if there is one. *)
Fixpoint obj_get (k : string) (o : obj) : option V :=
  match o with
  | [] => None
  | (k', v') :: o' => if decide (k' = k) then Some v' else obj_get k o'
  end.

End Obj.
Arguments obj V : clear implicits.

End JsObject.
Import JsObject.

(** ** Data model *)

(** A node of the input document, as [flattenSnippets] reads it: the
    [type] discriminator, and the fields [name], [text] and [children],
    any of which the document may omit. *)
Module Node.
#[local] Unset Elimination Schemes.
Inductive node : Type :=
  Build (type : option string) (name : option string)
        (text : option string) (children : option (list (string * node))).

#[local] Set Elimination Schemes.

Definition type (value : node) : option string :=
  let 'Build t _ _ _ := value in t.
Definition name (value : node) : option string :=
  let 'Build _ n _ _ := value in n.
Definition text (value : node) : option string :=
  let 'Build _ _ t _ := value in t.
Definition children (value : node) : option (list (string * node)) :=
  let 'Build _ _ _ c := value in c.
End Node.
Abbreviation node := Node.node.

(** The parsed JSON document handed to the constructor. *)
Record jsonData : Type := { snippets : option (obj node) }.

(** The record stored in the flat index for one snippet. *)
Module Entry.
Record t : Type := {
  name : option string;
  text : option string;
  path : list string;
  category : string;
  subcategory : option string
}.
End Entry.
Abbreviation IndexEntry := Entry.t.

(** [path[0] || 'Root']: a missing or empty first segment gives ['Root']. *)
Definition category_of (path : list string) : string :=
  match path !! 0%nat with
  | Some s => if decide (s = "") then "Root" else s
  | None => "Root"
  end.

(** [path[1] || null] *)
Definition subcategory_of (path : list string) : option string :=
  match path !! 1%nat with
  | Some s => if decide (s = "") then None else Some s
  | None => None
  end.

(** ** Tree indexer *)

Definition snippet_entry (value : node) (path currentPath : list string)
  : IndexEntry :=
  {| Entry.name := Node.name value;
     Entry.text := Node.text value;
     Entry.path := currentPath;
     Entry.category := category_of path;
     Entry.subcategory := subcategory_of path |}.

(** The body of the loop of [flattenSnippets] for one [[key, value]]
    pair, with the recursive call on [value.children] inlined. *)
Fixpoint flatten_entry (key : string) (value : node) (path : list string)
    (result : obj IndexEntry) {struct value} : obj IndexEntry :=
  let currentPath := path ++ [key] in
  match value with
  | Node.Build type _ _ children =>
      if decide (type = Some "snippet") then
        obj_set (join currentPath) (snippet_entry value path currentPath) result
      else if decide (type = Some "folder") then
        match children with
        | Some entries =>
            (fix loop (entries : list (string * node)) (result : obj IndexEntry) :=
               match entries with
               | [] => result
               | (k, v) :: rest => loop rest (flatten_entry k v currentPath result)
               end) entries result
        | None => result
        end
      else result
  end.

(** [flattenSnippets(obj, path, result)]; [obj] is given by its
    [Object.entries]. *)
Fixpoint flattenSnippets (entries : list (string * node)) (path : list string)
    (result : obj IndexEntry) : obj IndexEntry :=
  match entries with
  | [] => result
  | (key, value) :: rest =>
      flattenSnippets rest path (flatten_entry key value path result)
  end.

Record StrudelSnippetLibrary : Type := {
  data : jsonData;
  flatSnippets : obj IndexEntry
}.

(** [new StrudelSnippetLibrary(jsonData)].  [Object.entries] of a missing
    [snippets] member throws. *)
Definition constructor (jsonData : jsonData) : outcome StrudelSnippetLibrary :=
  match snippets jsonData with
  | Some entries =>
      Returned {| data := jsonData;
                  flatSnippets := flattenSnippets entries [] [] |}
  | None => Threw "TypeError: Cannot convert undefined or null to object"
  end.

(** ** Query engine *)

(** [getSnippet(path)]: [this.flatSnippets[path] || null].  Every value
    stored in the index is an object, hence truthy; [None] stands for
    "no own property under that key".  What the expression evaluates to
    in that case, read through the prototype chain, is
    [getSnippet_value] below. *)
Definition getSnippet (this : StrudelSnippetLibrary) (path : string)
  : option IndexEntry :=
  obj_get path (flatSnippets this).

(** [{...snippet, fullPath: path}] *)
Record Located : Type := {
  snippet : IndexEntry;
  fullPath : string
}.

(** [{...snippet, fullPath: path, score: ...}] *)
Record SearchResult : Type := {
  hit : Located;
  score : Z
}.

(** [getSnippetsInFolder(folderPath)] *)
Definition getSnippetsInFolder (this : StrudelSnippetLibrary)
    (folderPath : string) : list Located :=
  let folderPrefix := folderPath +:+ "/" in
  (fix loop (entries : list (string * IndexEntry)) (results : list Located) :=
     match entries with
     | [] => results
     | (path, snippet) :: rest =>
         loop rest
           (if startsWith path folderPrefix
            then results ++ [{| snippet := snippet; fullPath := path |}]
            else results)
     end) (Object_entries (flatSnippets this)) [].

(** [calculateRelevanceScore(snippet, query, path)]; [query] is already
    in lower case. *)
Definition calculateRelevanceScore (snippet : IndexEntry) (query path : string)
  : outcome Z :=
  let score := 0%Z in
  lname ←! toLowerCase_of (Entry.name snippet);
  let score :=
    if decide (lname = query) then (score + 100)%Z
    else if includes lname query then (score + 50)%Z
    else score in
  let score :=
    if includes (toLowerCase path) query then (score + 25)%Z else score in
  let score := (score - Z.of_nat (length (split path)))%Z in
  Returned score.

(** The [options] argument of [searchSnippets]; an absent member is
    [None] and takes its default in the destructuring. *)
Module Options.
Record t : Type := {
  searchInText : option bool;
  category : option string;
  maxResults : option Z
}.

(** [{}] *)
Definition empty : t :=
  {| searchInText := None; category := None; maxResults := None |}.
End Options.

(** [category && snippet.category.toLowerCase() !== category.toLowerCase()]:
    an absent or empty [category] filters nothing. *)
Definition category_rejects (category : option string) (snippet : IndexEntry)
  : bool :=
  match category with
  | Some c =>
      if decide (c = "") then false
      else negb (bool_decide
                   (toLowerCase (Entry.category snippet) = toLowerCase c))
  | None => false
  end.

(** The [for] loop of [searchSnippets] over the remaining [entries],
    with the [results] pushed so far. *)
Fixpoint search_loop (lowerQuery : string) (searchInText : bool)
    (category : option string) (maxResults : Z)
    (entries : list (string * IndexEntry)) (results : list SearchResult)
  : outcome (list SearchResult) :=
  match entries with
  | [] => Returned results
  | (path, snippet) :: rest =>
      let matches := false in
      lname ←! toLowerCase_of (Entry.name snippet);
      let matches := if includes lname lowerQuery then true else matches in
      let matches :=
        if includes (toLowerCase path) lowerQuery then true else matches in
      in_text ←! (if searchInText
                  then ltext ←! toLowerCase_of (Entry.text snippet);
                       Returned (includes ltext lowerQuery)
                  else Returned false);
      let matches := if in_text then true else matches in
      let matches := if category_rejects category snippet then false else matches in
      results ←! (if matches
                  then score ←! calculateRelevanceScore snippet lowerQuery path;
                       Returned (results ++
                         [{| hit := {| snippet := snippet; fullPath := path |};
                             score := score |}])
                  else Returned results);
      if (maxResults <=? Z.of_nat (length results))%Z then Returned results
      else search_loop lowerQuery searchInText category maxResults rest results
  end.

(** [Array.prototype.sort(compare)].  The sort is stable (ECMAScript
    2019), so for a comparator that orders consistently the result is
    determined; it is computed here by stable insertion.  [compare a b]
    positive means that [a] goes after [b]. *)
Section Sort.
Context {A : Type} (compare : A → A → Z).

Fixpoint sort_insert (x : A) (sorted : list A) : list A :=
  match sorted with
  | [] => [x]
  | y :: rest =>
      if (0 <? compare x y)%Z then y :: sort_insert x rest
      else x :: sorted
  end.

Definition Array_sort (l : list A) : list A := foldr sort_insert [] l.
End Sort.

(** The comparator [(a, b) => b.score - a.score]. *)
Definition by_score_desc (a b : SearchResult) : Z := (score b - score a)%Z.

(** [searchSnippets(query, options = {})] *)
Definition searchSnippets (this : StrudelSnippetLibrary) (query : string)
    (options : Options.t) : outcome (list SearchResult) :=
  let searchInText := default false (Options.searchInText options) in
  let category := Options.category options in
  let maxResults := default 20%Z (Options.maxResults options) in
  let lowerQuery := toLowerCase query in
  results ←! search_loop lowerQuery searchInText category maxResults
               (Object_entries (flatSnippets this)) [];
  Returned (Array_sort by_score_desc results).

(** ** The specification's vocabulary *)

(** *** Documents *)

(** A snippet node of the document together with the names of its
    ancestors and its own key. *)
Definition placed : Type := (list string * string * node)%type.

(** The SnippetNodes reachable from a children mapping located at
    [path], in depth-first document order.  A node is a SnippetNode when
    its discriminator says so; any other node is searched through its
    children mapping, when it has one. *)
Fixpoint snippets_of (key : string) (value : node) (path : list string)
    {struct value} : list placed :=
  match value with
  | Node.Build type _ _ children =>
      if decide (type = Some "snippet") then [(path, key, value)]
      else match children with
           | Some entries =>
               (fix all (entries : list (string * node)) : list placed :=
                  match entries with
                  | [] => []
                  | (k, v) :: rest => snippets_of k v (path ++ [key]) ++ all rest
                  end) entries
           | None => []
           end
  end.

Fixpoint snippet_nodes (entries : list (string * node)) (path : list string)
  : list placed :=
  match entries with
  | [] => []
  | (key, value) :: rest => snippets_of key value path ++ snippet_nodes rest path
  end.

(** The number of SnippetNodes in a subtree. *)
Fixpoint count_snippets_node (value : node) : nat :=
  match value with
  | Node.Build type _ _ children =>
      if decide (type = Some "snippet") then 1%nat
      else match children with
           | Some entries =>
               (fix sum (entries : list (string * node)) : nat :=
                  match entries with
                  | [] => 0%nat
                  | (_, v) :: rest => (count_snippets_node v + sum rest)%nat
                  end) entries
           | None => 0%nat
           end
  end.

Fixpoint count_snippets (entries : list (string * node)) : nat :=
  match entries with
  | [] => 0%nat
  | (_, value) :: rest => (count_snippets_node value + count_snippets rest)%nat
  end.

(** The path string of a placed snippet and the IndexEntry it stands
    for. *)
Definition path_string (s : placed) : string :=
  let '(path, key, _) := s in join (path ++ [key]).

Definition index_pair (s : placed) : string * IndexEntry :=
  let '(path, key, value) := s in
  (join (path ++ [key]), snippet_entry value path (path ++ [key])).

(** Every node is well-formed: a snippet carries [name] and [text], a
    folder carries a [children] mapping of well-formed nodes. *)
Fixpoint well_formed_node (value : node) : bool :=
  match value with
  | Node.Build type name text children =>
      if decide (type = Some "snippet") then
        bool_decide (is_Some name) && bool_decide (is_Some text)
      else if decide (type = Some "folder") then
        match children with
        | Some entries =>
            (fix all (entries : list (string * node)) : bool :=
               match entries with
               | [] => true
               | (_, v) :: rest => well_formed_node v && all rest
               end) entries
        | None => false
        end
      else false
  end.

Fixpoint well_formed (entries : list (string * node)) : bool :=
  match entries with
  | [] => true
  | (_, value) :: rest => well_formed_node value && well_formed rest
  end.

(** Sibling keys are unique at every level. *)
Fixpoint sibling_keys_unique_node (value : node) : bool :=
  match value with
  | Node.Build _ _ _ children =>
      match children with
      | Some entries =>
          bool_decide (NoDup entries.*1) &&
          (fix all (entries : list (string * node)) : bool :=
             match entries with
             | [] => true
             | (_, v) :: rest => sibling_keys_unique_node v && all rest
             end) entries
      | None => true
      end
  end.

Fixpoint sibling_keys_unique_below (entries : list (string * node)) : bool :=
  match entries with
  | [] => true
  | (_, value) :: rest =>
      sibling_keys_unique_node value && sibling_keys_unique_below rest
  end.

Definition sibling_keys_unique (entries : list (string * node)) : bool :=
  bool_decide (NoDup entries.*1) && sibling_keys_unique_below entries.

(** No key holds the path separator. *)
Fixpoint keys_slash_free_node (value : node) : bool :=
  match value with
  | Node.Build _ _ _ children =>
      match children with
      | Some entries =>
          (fix all (entries : list (string * node)) : bool :=
             match entries with
             | [] => true
             | (k, v) :: rest =>
                 slash_free k && keys_slash_free_node v && all rest
             end) entries
      | None => true
      end
  end.

Fixpoint keys_slash_free (entries : list (string * node)) : bool :=
  match entries with
  | [] => true
  | (key, value) :: rest =>
      slash_free key && keys_slash_free_node value && keys_slash_free rest
  end.

(** No snippet sits at the path string ["__proto__"], which a plain
    object cannot hold as an own property by assignment. *)
Definition no_proto_path (entries : list (string * node)) : bool :=
  bool_decide ("__proto__" ∉ path_string <$> snippet_nodes entries []).

(** The malformed nodes of the specification. *)
Definition missing_type (value : node) : Prop :=
  Node.type value ≠ Some "snippet" ∧ Node.type value ≠ Some "folder".
Definition folder_without_children (value : node) : Prop :=
  Node.type value = Some "folder" ∧ Node.children value = None.
Definition snippet_without_text (value : node) : Prop :=
  Node.type value = Some "snippet" ∧ Node.text value = None.

(** *** Entries and search *)

(** The strings that [searchSnippets] reads are there. *)
Definition strings_defined (entries : list (string * IndexEntry)) : bool :=
  forallb (λ kv, bool_decide (is_Some (Entry.name kv.2)) &&
                 bool_decide (is_Some (Entry.text kv.2))) entries.

Definition contains_ci (s query : string) : bool :=
  includes (toLowerCase s) (toLowerCase query).

Definition equals_ci (s query : string) : bool :=
  bool_decide (toLowerCase s = toLowerCase query).

Definition contains_ci_opt (s : option string) (query : string) : bool :=
  match s with Some s => contains_ci s query | None => false end.

(** The number of segments of a path string: one more than its
    separators. *)
Fixpoint count_slashes (s : string) : nat :=
  match s with
  | EmptyString => 0%nat
  | String c s' =>
      ((if bool_decide (c = slash) then 1 else 0) + count_slashes s')%nat
  end.

Definition segment_count (path : string) : nat := S (count_slashes path).

(** The score in the specification's words. *)
Definition spec_score (name path query : string) : Z :=
  (0 + (if equals_ci name query then 100
        else if contains_ci name query then 50 else 0)
     + (if contains_ci path query then 25 else 0)
     - Z.of_nat (segment_count path))%Z.

(** The search predicate in the specification's words. *)
Definition passes (query : string) (options : Options.t)
    (kv : string * IndexEntry) : bool :=
  let '(path, snippet) := kv in
  (contains_ci_opt (Entry.name snippet) query
   || contains_ci path query
   || (default false (Options.searchInText options)
       && contains_ci_opt (Entry.text snippet) query))
  && negb (category_rejects (Options.category options) snippet).

Definition score_of (query : string) (kv : string * IndexEntry) : Z :=
  spec_score (default "" (Entry.name kv.2)) kv.1 query.

Definition result_of (query : string) (kv : string * IndexEntry)
  : SearchResult :=
  {| hit := {| snippet := kv.2; fullPath := kv.1 |};
     score := score_of query kv |}.

Definition entry_of (r : SearchResult) : string * IndexEntry :=
  (fullPath (hit r), snippet (hit r)).

(** ** Example documents *)

Definition snippet_node (name text : string) : node :=
  Node.Build (Some "snippet") (Some name) (Some text) None.

Definition folder_node (children : list (string * node)) : node :=
  Node.Build (Some "folder") None None (Some children).

(** The document of the specification's search scenario. *)
Definition hello_document : jsonData :=
  {| snippets := Some
       [("A", folder_node [("Hello", snippet_node "Hello" "x")]);
        ("B", folder_node
                [("C", folder_node
                         [("Hello World", snippet_node "Hello World" "y")])])] |}.

Definition hello_entry : IndexEntry :=
  {| Entry.name := Some "Hello"; Entry.text := Some "x";
     Entry.path := ["A"; "Hello"];
     Entry.category := "A"; Entry.subcategory := None |}.

Definition hello_world_entry : IndexEntry :=
  {| Entry.name := Some "Hello World"; Entry.text := Some "y";
     Entry.path := ["B"; "C"; "Hello World"];
     Entry.category := "B"; Entry.subcategory := Some "C" |}.

Definition hello_library : StrudelSnippetLibrary :=
  {| data := hello_document;
     flatSnippets := [("A/Hello", hello_entry);
                      ("B/C/Hello World", hello_world_entry)] |}.

(** *** Indexes *)

(** Keys are distinct and each entry sits under the join of its path. *)
Definition keyed_by_path (o : obj IndexEntry) : Prop :=
  NoDup o.*1 ∧ ∀ k e, (k, e) ∈ o → join (Entry.path e) = k.

Definition located (kv : string * IndexEntry) : Located :=
  {| snippet := kv.2; fullPath := kv.1 |}.

(** The path string starts with [folderPath + "/"]. *)
Definition under_folder (folderPath : string) (kv : string * IndexEntry) : Prop :=
  startsWith kv.1 (folderPath +:+ "/") = true.

Global Instance under_folder_dec folderPath kv : Decision (under_folder folderPath kv).
Proof. unfold under_folder. apply _. Defined.

(** What the loop gathers from an index when the cap is already met
    before its first turn: it still looks at the first entry. *)
Definition first_hit (query : string) (options : Options.t)
    (entries : list (string * IndexEntry)) : list SearchResult :=
  match entries with
  | [] => []
  | kv :: _ => if passes query options kv then [result_of query kv] else []
  end.

(** [a] may stand before [b] in a list ranked by descending score. *)
Definition descending (a b : SearchResult) : Prop := (score b ≤ score a)%Z.

Definition has_score (s : Z) (r : SearchResult) : Prop := score r = s.

Global Instance has_score_dec s r : Decision (has_score s r).
Proof. unfold has_score. apply _. Defined.

(** The entries of an index that pass the search predicate, in
    iteration order. *)
Definition matching (query : string) (options : Options.t)
    (entries : list (string * IndexEntry)) : list (string * IndexEntry) :=
  filter (λ kv, passes query options kv = true) entries.

(** *** Example indexes and options *)

(** The same snippets with the two folders in the other order. *)
Definition hello_document_swapped : jsonData :=
  {| snippets := Some
       [("B", folder_node
                [("C", folder_node
                         [("Hello World", snippet_node "Hello World" "y")])]);
        ("A", folder_node [("Hello", snippet_node "Hello" "x")])] |}.

Definition hello_library_swapped : StrudelSnippetLibrary :=
  {| data := hello_document_swapped;
     flatSnippets := [("B/C/Hello World", hello_world_entry);
                      ("A/Hello", hello_entry)] |}.

(** A snippet whose display name is the empty string. *)
Definition unnamed_document : jsonData :=
  {| snippets := Some [("x", snippet_node "" "t")] |}.

Definition unnamed_entry : IndexEntry :=
  {| Entry.name := Some ""; Entry.text := Some "t"; Entry.path := ["x"];
     Entry.category := "Root"; Entry.subcategory := None |}.

Definition unnamed_library : StrudelSnippetLibrary :=
  {| data := unnamed_document; flatSnippets := [("x", unnamed_entry)] |}.

(** [{maxResults: n}] *)
Definition cap (n : Z) : Options.t :=
  {| Options.searchInText := None; Options.category := None;
     Options.maxResults := Some n |}.

Definition scored (kv : string * IndexEntry) (s : Z) : SearchResult :=
  {| hit := located kv; score := s |}.


(** The same with every entry scored 50 plus 25 minus its segments. *)
Definition empty_query_result_flat (kv : string * IndexEntry) : SearchResult :=
  scored kv (50 + 25 - Z.of_nat (segment_count kv.1))%Z.

(** The full path of a placed snippet: its ancestors, then its key. *)
Definition full_path (s : placed) : list string := s.1.1 ++ [s.1.2].

(** A document in which the key ["A/B"] and the key ["B"] under ["A"]
    meet at one path string. *)
Definition slash_document : jsonData :=
  {| snippets := Some
       [("A/B", snippet_node "one" "x");
        ("A", folder_node [("B", snippet_node "two" "y")])] |}.

Definition slash_library : StrudelSnippetLibrary :=
  {| data := slash_document;
     flatSnippets :=
       [("A/B", {| Entry.name := Some "two"; Entry.text := Some "y";
                   Entry.path := ["A"; "B"];
                   Entry.category := "A"; Entry.subcategory := None |})] |}.

(** *** Malformed nodes *)

(** The document without the nodes that have no recognised [type] and
    without the folders that have no [children]. *)
Fixpoint prune_node (value : node) : option node :=
  match value with
  | Node.Build type name text children =>
      if decide (type = Some "snippet") then Some value
      else if decide (type = Some "folder") then
        match children with
        | Some entries =>
            Some (Node.Build type name text (Some
              ((fix all (entries : list (string * node)) :=
                  match entries with
                  | [] => []
                  | (k, v) :: rest =>
                      match prune_node v with
                      | Some v' => (k, v') :: all rest
                      | None => all rest
                      end
                  end) entries)))
        | None => None
        end
      else None
  end.

Fixpoint prune (entries : list (string * node)) : list (string * node) :=
  match entries with
  | [] => []
  | (key, value) :: rest =>
      match prune_node value with
      | Some value' => (key, value') :: prune rest
      | None => prune rest
      end
  end.

(** A folder with one good snippet and one node of each malformed kind. *)
Definition malformed_document : jsonData :=
  {| snippets := Some
       [("A", folder_node
                [("untyped", Node.Build None (Some "n") (Some "t") None);
                 ("hollow", Node.Build (Some "folder") None None None);
                 ("mute", Node.Build (Some "snippet") (Some "mute") None None);
                 ("ok", snippet_node "ok" "x")])] |}.

Definition malformed_library : StrudelSnippetLibrary :=
  {| data := malformed_document;
     flatSnippets :=
       [("A/mute", {| Entry.name := Some "mute"; Entry.text := None;
                      Entry.path := ["A"; "mute"];
                      Entry.category := "A"; Entry.subcategory := None |});
        ("A/ok", {| Entry.name := Some "ok"; Entry.text := Some "x";
                    Entry.path := ["A"; "ok"];
                    Entry.category := "A"; Entry.subcategory := None |})] |}.

(** *** The snippets the indexer visits *)

(** The snippet nodes that [flattenSnippets] reaches, in the order in
    which it reaches them: it descends only into nodes typed
    ['folder'] that have [children]. *)
Fixpoint visited_of (key : string) (value : node) (path : list string)
    {struct value} : list placed :=
  match value with
  | Node.Build type _ _ children =>
      if decide (type = Some "snippet") then [(path, key, value)]
      else if decide (type = Some "folder") then
        match children with
        | Some entries =>
            (fix all (entries : list (string * node)) : list placed :=
               match entries with
               | [] => []
               | (k, v) :: rest => visited_of k v (path ++ [key]) ++ all rest
               end) entries
        | None => []
        end
      else []
  end.

Fixpoint visited (entries : list (string * node)) (path : list string)
  : list placed :=
  match entries with
  | [] => []
  | (key, value) :: rest => visited_of key value path ++ visited rest path
  end.

(** Assigning the entries of a list of placed snippets, one after the
    other. *)
Definition assign_all (l : list placed) (result : obj IndexEntry)
  : obj IndexEntry :=
  fold_left (λ o s, obj_set (index_pair s).1 (index_pair s).2 o) l result.

(** The last element of a list that satisfies a test. *)
Fixpoint find_last {A : Type} (f : A → bool) (l : list A) : option A :=
  match l with
  | [] => None
  | x :: l' =>
      match find_last f l' with
      | Some y => Some y
      | None => if f x then Some x else None
      end
  end.

Definition at_path (p : string) (s : placed) : bool :=
  bool_decide (path_string s = p).

(** No path string of a visited snippet is an array index or
    ["__proto__"]. *)
Definition ordinary_path (s : placed) : bool :=
  negb (bool_decide (path_string s = "__proto__")) &&
  negb (bool_decide (is_Some (array_index (path_string s)))).

(** *** Further example documents *)

(** Two snippets under one path string: the key ["A/B"] and the key
    ["B"] under ["A"], the latter visited last. *)
Definition shadow_entries : list (string * node) :=
  [("A/B", snippet_node "one" "x");
   ("A", folder_node [("B", snippet_node "two" "y")])].

Definition hello_entries : list (string * node) :=
  [("A", folder_node [("Hello", snippet_node "Hello" "x")]);
   ("B", folder_node
           [("C", folder_node
                    [("Hello World", snippet_node "Hello World" "y")])])].

(** ** Menu structure *)

(** The objects pushed by [generateMenuStructure]: a folder item
    [{type: 'folder', label, path, children}] or a snippet item
    [{type: 'snippet', label, path, text, category}]. *)
#[local] Unset Elimination Schemes.
Inductive MenuItem : Type :=
  | MenuFolder (label : string) (path : list string) (children : list MenuItem)
  | MenuSnippet (label : option string) (path : list string)
      (text : option string) (category : string).
#[local] Set Elimination Schemes.

Definition RangeError_stack : string :=
  "RangeError: Maximum call stack size exceeded".

Section MenuLoop.
(** The recursive call [this.generateMenuStructure(obj, path)]. *)
Variable recur :
  option (list (string * node)) → list string → outcome (list MenuItem).

(** The body of the loop of [generateMenuStructure] for one
    [[key, value]] pair. *)
Definition menu_push (key : string) (value : node) (path : list string)
    (menu : list MenuItem) : outcome (list MenuItem) :=
  if decide (Node.type value = Some "folder") then
    children ←! recur (Node.children value) (path ++ [key]);
    Returned (menu ++ [MenuFolder key (path ++ [key]) children])
  else if decide (Node.type value = Some "snippet") then
    Returned (menu ++ [MenuSnippet (Node.name value) (path ++ [key])
                         (Node.text value) (category_of path)])
  else Returned menu.

Fixpoint menu_loop (entries : list (string * node)) (path : list string)
    (menu : list MenuItem) : outcome (list MenuItem) :=
  match entries with
  | [] => Returned menu
  | (key, value) :: rest =>
      menu ←! menu_push key value path menu;
      menu_loop rest path menu
  end.
End MenuLoop.

(** [generateMenuStructure(obj = this.data.snippets, path)].  An [obj]
    that is [undefined] takes the default, also in the recursive call on
    a folder without [children], which thus starts again from the root
    of the document.  [depth] is the number of nested calls that the
    call stack still takes. *)
Fixpoint generateMenuStructure (depth : nat) (this : StrudelSnippetLibrary)
    (obj : option (list (string * node))) (path : list string)
  : outcome (list MenuItem) :=
  match depth with
  | O => Threw RangeError_stack
  | S depth' =>
      let obj := match obj with
                 | Some entries => Some entries
                 | None => snippets (data this)
                 end in
      match obj with
      | Some entries =>
          menu_loop (generateMenuStructure depth' this) entries path []
      | None => Threw "TypeError: Cannot convert undefined or null to object"
      end
  end.

(** The snippet items of a menu, depth first. *)
Fixpoint menu_snippets_of (item : MenuItem) : list MenuItem :=
  match item with
  | MenuFolder _ _ children =>
      (fix all (items : list MenuItem) : list MenuItem :=
         match items with
         | [] => []
         | i :: rest => menu_snippets_of i ++ all rest
         end) children
  | MenuSnippet _ _ _ _ => [item]
  end.

Fixpoint menu_snippets (menu : list MenuItem) : list MenuItem :=
  match menu with
  | [] => []
  | item :: rest => menu_snippets_of item ++ menu_snippets rest
  end.

(** The snippet item that stands for a placed snippet. *)
Definition snippet_item (s : placed) : MenuItem :=
  let '(path, key, value) := s in
  MenuSnippet (Node.name value) (path ++ [key]) (Node.text value)
    (category_of path).

(** Every node typed ['folder'] that the menu builder reaches has a
    [children] mapping. *)
Fixpoint folders_have_children_node (value : node) : bool :=
  match value with
  | Node.Build type _ _ children =>
      if decide (type = Some "folder") then
        match children with
        | Some entries =>
            (fix all (entries : list (string * node)) : bool :=
               match entries with
               | [] => true
               | (_, v) :: rest => folders_have_children_node v && all rest
               end) entries
        | None => false
        end
      else true
  end.

Fixpoint folders_have_children (entries : list (string * node)) : bool :=
  match entries with
  | [] => true
  | (_, value) :: rest =>
      folders_have_children_node value && folders_have_children rest
  end.

Definition threw {A : Type} (m : outcome A) : Prop := ∃ e, m = Threw e.

(** A folder that lacks its [children] beside a good snippet. *)
Definition hollow_entries : list (string * node) :=
  [("ok", snippet_node "ok" "x");
   ("hollow", Node.Build (Some "folder") None None None)].

Definition hollow_library : StrudelSnippetLibrary :=
  {| data := {| snippets := Some hollow_entries |};
     flatSnippets := [("ok", {| Entry.name := Some "ok"; Entry.text := Some "x";
                                Entry.path := ["ok"]; Entry.category := "Root";
                                Entry.subcategory := None |})] |}.

(** ** Categories *)

(** [getSnippetsByCategory(category)] *)
Definition getSnippetsByCategory (this : StrudelSnippetLibrary)
    (category : string) : list Located :=
  (fix loop (entries : list (string * IndexEntry)) (results : list Located) :=
     match entries with
     | [] => results
     | (path, snippet) :: rest =>
         loop rest
           (if decide (toLowerCase (Entry.category snippet)
                       = toLowerCase category)
            then results ++ [{| snippet := snippet; fullPath := path |}]
            else results)
     end) (Object_entries (flatSnippets this)) [].

(** [Object.values(o)] *)
Definition Object_values {V : Type} (o : obj V) : list V := o.*2.

(** A [Set] of strings is the list of its members in insertion order;
    [set.add(x)]. *)
Definition Set_add (x : string) (set : list string) : list string :=
  if decide (x ∈ set) then set else set ++ [x].

(** [getCategories()] *)
Definition getCategories (this : StrudelSnippetLibrary) : list string :=
  fold_left (λ categories snippet, Set_add (Entry.category snippet) categories)
    (Object_values (flatSnippets this)) [].

(** The entry's category is [category], letter case apart. *)
Definition in_category (category : string) (kv : string * IndexEntry) : Prop :=
  toLowerCase (Entry.category kv.2) = toLowerCase category.

Global Instance in_category_dec category kv : Decision (in_category category kv).
Proof. unfold in_category. apply _. Defined.

(** [category] is truthy: present and not the empty string. *)
Definition category_given (category : option string) : bool :=
  match category with
  | Some c => negb (bool_decide (c = ""))
  | None => false
  end.

(** An entry that [getRandomSnippet] may pick: any entry when no
    category or the empty one is given, else one in the category. *)
Definition eligible (category : option string) (kv : string * IndexEntry)
  : Prop :=
  if category_given category
  then in_category (default "" category) kv
  else True.

(** [getRandomSnippet(category = null)].  [random n] stands for
    [Math.floor(Math.random() * n)]; destructuring an element that is
    not there throws. *)
Definition getRandomSnippet (random : nat → nat) (this : StrudelSnippetLibrary)
    (category : option string) : outcome (option Located) :=
  let snippets := Object_entries (flatSnippets this) in
  let snippets :=
    match category with
    | Some c =>
        if decide (c = "") then snippets else filter (in_category c) snippets
    | None => snippets
    end in
  if decide (length snippets = 0%nat) then Returned None
  else
    let randomIndex := random (length snippets) in
    match snippets !! randomIndex with
    | Some (path, snippet) =>
        Returned (Some {| snippet := snippet; fullPath := path |})
    | None => Threw "TypeError: undefined is not iterable"
    end.

(** ** Statistics *)

Module Stats.
(** [{count, subcategories}]; the [Set] of subcategories is the list of
    its members in insertion order, which [Array.from] keeps. *)
Record category : Type := {
  count : nat;
  subcategories : list string
}.

(** [{totalSnippets, categories, categoriesDetail}] *)
Record t : Type := {
  totalSnippets : nat;
  categories : nat;
  categoriesDetail : obj category
}.
End Stats.

(** The properties that every plain object inherits from
    [Object.prototype]; each of them reads as a truthy value. *)
Definition Object_prototype_members : list string :=
  ["constructor"; "hasOwnProperty"; "isPrototypeOf"; "propertyIsEnumerable";
   "toLocaleString"; "toString"; "valueOf"; "__proto__";
   "__defineGetter__"; "__defineSetter__";
   "__lookupGetter__"; "__lookupSetter__"].

Definition inherited (k : string) : bool :=
  bool_decide (k ∈ Object_prototype_members).

(** One turn of the loop of [getStats] on the counter and the
    [categories] object.  [categories[category]] reads the own property
    or else the inherited one, on which [count++] leaves the own
    properties alone and [subcategories] is undefined. *)
Definition stats_turn (state : nat * obj Stats.category) (snippet : IndexEntry)
  : outcome (nat * obj Stats.category) :=
  let '(totalSnippets, categories) := state in
  let totalSnippets := S totalSnippets in
  let category := Entry.category snippet in
  let categories :=
    if obj_has category categories || inherited category then categories
    else obj_set category
           {| Stats.count := 0; Stats.subcategories := [] |} categories in
  let categories :=
    match obj_get category categories with
    | Some c =>
        obj_update category
          {| Stats.count := S (Stats.count c);
             Stats.subcategories := Stats.subcategories c |} categories
    | None => categories
    end in
  match Entry.subcategory snippet with
  | Some sub =>
      if decide (sub = "") then Returned (totalSnippets, categories)
      else
        match obj_get category categories with
        | Some c =>
            Returned
              (totalSnippets,
               obj_update category
                 {| Stats.count := Stats.count c;
                    Stats.subcategories := Set_add sub (Stats.subcategories c) |}
                 categories)
        | None =>
            Threw "TypeError: Cannot read properties of undefined (reading 'add')"
        end
  | None => Returned (totalSnippets, categories)
  end.

Fixpoint stats_loop (snippets : list IndexEntry)
    (state : nat * obj Stats.category) : outcome (nat * obj Stats.category) :=
  match snippets with
  | [] => Returned state
  | snippet :: rest => state ←! stats_turn state snippet; stats_loop rest state
  end.

(** [getStats()] *)
Definition getStats (this : StrudelSnippetLibrary) : outcome Stats.t :=
  state ←! stats_loop (Object_values (flatSnippets this)) (0%nat, []);
  let '(totalSnippets, categories) := state in
  Returned {| Stats.totalSnippets := totalSnippets;
              Stats.categories := length categories.*1;
              Stats.categoriesDetail := categories |}.

(** A subcategory that is truthy is added to the set. *)
Definition add_subcategory (set : list string) (snippet : IndexEntry)
  : list string :=
  match Entry.subcategory snippet with
  | Some sub => if decide (sub = "") then set else Set_add sub set
  | None => set
  end.

(** The record of a category over a list of entries: how many of them
    have exactly this category, and their distinct subcategories. *)
Definition stats_of (c : string) (l : list IndexEntry) : Stats.category :=
  let members := filter (λ e, Entry.category e = c) l in
  {| Stats.count := length members;
     Stats.subcategories := fold_left add_subcategory members [] |}.

(** The entry on which [getStats] fails: its category is the name of an
    inherited property and it has a subcategory. *)
Definition stats_trap (e : IndexEntry) : bool :=
  inherited (Entry.category e) &&
  match Entry.subcategory e with
  | Some sub => negb (bool_decide (sub = ""))
  | None => false
  end.

(** What [categories[c]] holds as an own property after the entries [l]. *)
Definition stats_record (c : string) (l : list IndexEntry)
  : option Stats.category :=
  if bool_decide (c ∈ Entry.category <$> l) && negb (inherited c)
  then Some (stats_of c l) else None.

Definition stats_invariant (l : list IndexEntry)
    (state : nat * obj Stats.category) : Prop :=
  state.1 = length l ∧ NoDup state.2.*1 ∧
  ∀ c, obj_get c state.2 = stats_record c l.

(** A folder named like an inherited property, with a subfolder. *)
Definition toString_entries : list (string * node) :=
  [("toString", folder_node [("sub", folder_node [("x", snippet_node "x" "t")])])].

Definition toString_library : StrudelSnippetLibrary :=
  {| data := {| snippets := Some toString_entries |};
     flatSnippets :=
       [("toString/sub/x",
         {| Entry.name := Some "x"; Entry.text := Some "t";
            Entry.path := ["toString"; "sub"; "x"];
            Entry.category := "toString"; Entry.subcategory := Some "sub" |})] |}.

(** [{searchInText: true}] *)
Definition in_text : Options.t :=
  {| Options.searchInText := Some true; Options.category := None;
     Options.maxResults := None |}.

(** [{category: c}] *)
Definition within (c : string) : Options.t :=
  {| Options.searchInText := None; Options.category := Some c;
     Options.maxResults := None |}.

(** The names that [searchSnippets] reads are there. *)
Definition names_defined (entries : list (string * IndexEntry)) : bool :=
  forallb (λ kv, bool_decide (is_Some (Entry.name kv.2))) entries.

(** *** Enumeration order of keys *)

(** [k1] may be enumerated before [k2]: array indices come first, in
    ascending order. *)
Definition key_before (k1 k2 : string) : Prop :=
  match array_index k1, array_index k2 with
  | Some n1, Some n2 => (n1 ≤ n2)%N
  | Some _, None => True
  | None, Some _ => False
  | None, None => True
  end.

(** A document with numeric keys at the top level. *)
Definition numbered_entries : list (string * node) :=
  [("b", snippet_node "b" "x"); ("10", snippet_node "ten" "x");
   ("2", snippet_node "two" "x"); ("01", snippet_node "01" "x")].

(** *** Paths in a menu *)

(** An item pushed under the path [prefix]: its own path is [prefix]
    and one more segment, which for a folder is its label; the items
    of a folder are under the folder's path; a snippet item has the
    category of [prefix]. *)
Fixpoint well_nested (prefix : list string) (item : MenuItem) : Prop :=
  match item with
  | MenuFolder label path children =>
      path = prefix ++ [label] ∧
      (fix all (items : list MenuItem) : Prop :=
         match items with
         | [] => True
         | i :: rest => well_nested path i ∧ all rest
         end) children
  | MenuSnippet _ path _ category =>
      (∃ key, path = prefix ++ [key]) ∧ category = category_of prefix
  end.

(** The name of the result equals the query, letter case apart. *)
Definition exact_match (query : string) (r : SearchResult) : bool :=
  match Entry.name (snippet (hit r)) with
  | Some name => equals_ci name query
  | None => false
  end.

(** *** Names as the data model has them *)


(** *** Reading the index through its prototype chain *)

(** What [this.flatSnippets[path] || null] can evaluate to. *)
Inductive LookupValue : Type :=
  | EntryValue (entry : IndexEntry)     (* an entry object *)
  | ObjectPrototypeValue                (* [Object.prototype] itself *)
  | MethodValue (member : string)       (* a method of [Object.prototype] *)
  | StringValue (s : string)            (* a non-empty string *)
  | ArrayValue (path : list string)     (* a path array *)
  | NullValue.

(** The object that [flatSnippets] inherits from.  The constructor
    starts from [{}], whose prototype is [Object.prototype] ([None]
    here); an assignment under the key ["__proto__"] runs the inherited
    setter, which makes the assigned entry the prototype, so the entry
    of the snippet visited last under that path string is the one that
    stays. *)
Definition index_prototype (this : StrudelSnippetLibrary) : option IndexEntry :=
  entries ← snippets (data this);
  (λ s, (index_pair s).2) <$> find_last (at_path "__proto__") (visited entries []).

(** [s || null] for a string or [undefined]: the empty string is falsy. *)
Definition string_or_null (s : option string) : LookupValue :=
  match s with
  | Some s => if decide (s = "") then NullValue else StringValue s
  | None => NullValue
  end.

(** [entry[k] || null] for an own property [k] of an entry object. *)
Definition entry_member (entry : IndexEntry) (k : string) : option LookupValue :=
  if decide (k = "name") then Some (string_or_null (Entry.name entry))
  else if decide (k = "text") then Some (string_or_null (Entry.text entry))
  else if decide (k = "path") then Some (ArrayValue (Entry.path entry))
  else if decide (k = "category")
       then Some (string_or_null (Some (Entry.category entry)))
  else if decide (k = "subcategory")
       then Some (string_or_null (Entry.subcategory entry))
  else None.

(** The value of [getSnippet(path)], inherited properties included: an
    own property of the index wins ([getSnippet] above); else
    ["__proto__"] reads the prototype; else the property is looked up
    in the prototype when that is an entry, and then in
    [Object.prototype], all of whose members are truthy; what is found
    nowhere is [undefined], hence [null]. *)
Definition getSnippet_value (this : StrudelSnippetLibrary) (path : string)
  : LookupValue :=
  match getSnippet this path with
  | Some entry => EntryValue entry
  | None =>
      if decide (path = "__proto__") then
        match index_prototype this with
        | Some entry => EntryValue entry
        | None => ObjectPrototypeValue
        end
      else
        match index_prototype this ≫= λ entry, entry_member entry path with
        | Some v => v
        | None => if inherited path then MethodValue path else NullValue
        end
  end.

(** A snippet stored under the key ["__proto__"] at the top level. *)
Definition proto_document : jsonData :=
  {| snippets := Some [("__proto__", snippet_node "P" "p");
                       ("A", folder_node [("Hello", snippet_node "Hello" "x")])] |}.

(** *** Induction over documents *)

Section NodeInduction.
Variable P : node → Prop.
Hypothesis leaf : ∀ type name text, P (Node.Build type name text None).
Hypothesis inner : ∀ type name text entries,
  Forall (λ kv, P kv.2) entries → P (Node.Build type name text (Some entries)).

(** Induction over a document node and the nodes below it. *)
Fixpoint node_children_ind (value : node) : P value :=
  match value with
  | Node.Build type name text None => leaf type name text
  | Node.Build type name text (Some entries) =>
      inner type name text entries
        ((fix all (l : list (string * node)) : Forall (λ kv, P kv.2) l :=
            match l with
            | [] => Forall_nil_2 _
            | kv :: l' => Forall_cons_2 _ _ _ (node_children_ind kv.2) (all l')
            end) entries)
  end.
End NodeInduction.

(** * Properties *)

(** ** Strings *)

Section StringFacts.

Lemma toLowerCase_empty : toLowerCase "" = "".
Proof. reflexivity. Qed.



Lemma startsWith_app s p : startsWith s p = true ↔ ∃ r, s = p +:+ r.
Proof.
  revert s. induction p as [|a p IH]; intros s; simpl.
  - split; [intros _; by exists s | by destruct s].
  - destruct s as [|b s]; simpl.
    + split; [done | by intros [r ?]].
    + rewrite andb_true_iff, bool_decide_eq_true, IH. split.
      * intros [-> [r ->]]. by exists r.
      * intros [r [= -> ->]]. eauto.
Qed.

Lemma split_length path : length (split path) = segment_count path.
Proof.
  unfold segment_count. induction path as [|c s IH]; simpl; [done|].
  case_bool_decide; simpl; [by rewrite IH|].
  destruct (split s); simpl in *; lia.
Qed.

Lemma split_slash_free s : slash_free s = true → split s = [s].
Proof.
  induction s as [|c s IH]; simpl; [done|].
  rewrite andb_true_iff, negb_true_iff, bool_decide_eq_false.
  intros [Hc Hs]. destruct (bool_decide_reflect (c = slash)); [done|]. by rewrite IH.
Qed.

Lemma split_app_slash a r :
  slash_free a = true → split (a +:+ String slash r) = a :: split r.
Proof.
  induction a as [|c a IH]; simpl.
  - intros _. by destruct (bool_decide_reflect (slash = slash)).
  - rewrite andb_true_iff, negb_true_iff, bool_decide_eq_false.
    intros [Hc Ha]. destruct (bool_decide_reflect (c = slash)); [done|]. by rewrite IH.
Qed.

Lemma split_join l :
  l ≠ [] → Forall (λ s, slash_free s = true) l → split (join l) = l.
Proof.
  induction l as [|a l IH]; [done|]. intros _ Hl.
  apply Forall_cons in Hl as [Ha Hl]. destruct l as [|b l].
  - by apply split_slash_free.
  - change (join (a :: b :: l)) with (a +:+ String slash (join (b :: l))).
    rewrite split_app_slash by done. by rewrite IH.
Qed.

Lemma join_inj l1 l2 :
  l1 ≠ [] → l2 ≠ [] →
  Forall (λ s, slash_free s = true) l1 →
  Forall (λ s, slash_free s = true) l2 →
  join l1 = join l2 → l1 = l2.
Proof.
  intros ?? H1 H2 Heq.
  rewrite <-(split_join l1), <-(split_join l2) by done. by rewrite Heq.
Qed.

End StringFacts.

(** ** Plain objects *)

Section ObjectFacts.
Context {V : Type}.
Implicit Types (o : obj V) (k : string) (v : V).

Lemma obj_has_true k o : obj_has k o = true ↔ k ∈ o.*1.
Proof. unfold obj_has. by rewrite bool_decide_eq_true. Qed.

Lemma obj_has_false k o : obj_has k o = false ↔ k ∉ o.*1.
Proof. unfold obj_has. by rewrite bool_decide_eq_false. Qed.

Lemma obj_update_keys k v o : (obj_update k v o).*1 = o.*1.
Proof.
  induction o as [|[k' v'] o IH]; simpl; [done|].
  case_decide; csimpl; by rewrite ?IH.
Qed.

Lemma obj_insert_index_perm n k v o : obj_insert_index n k v o ≡ₚ (k, v) :: o.
Proof.
  induction o as [|[k' v'] o IH]; simpl; [done|].
  destruct (array_index k') as [n'|]; [|done].
  destruct (n' <? n)%N; [|done]. rewrite IH. apply Permutation_swap.
Qed.

(** Assigning to a fresh, ordinary key adds one property. *)
Lemma obj_set_fresh k v o :
  k ≠ "__proto__" → k ∉ o.*1 → obj_set k v o ≡ₚ o ++ [(k, v)].
Proof.
  intros Hk Hfresh. unfold obj_set. rewrite decide_False by done.
  apply obj_has_false in Hfresh as ->.
  destruct (array_index k); [|done].
  by rewrite obj_insert_index_perm, Permutation_cons_append.
Qed.

Lemma obj_update_elem k v o k' v' :
  (k', v') ∈ obj_update k v o → (k', v') = (k, v) ∨ (k', v') ∈ o.
Proof.
  induction o as [|[k0 v0] o IH]; simpl; [by right|].
  case_decide as Hk; rewrite !elem_of_cons.
  - subst. intros [->|?]; auto.
  - intros [?|Hin]; [tauto|]. apply IH in Hin. tauto.
Qed.

Lemma obj_set_elem k v o k' v' :
  (k', v') ∈ obj_set k v o → (k', v') = (k, v) ∨ (k', v') ∈ o.
Proof.
  unfold obj_set. case_decide; [by right|].
  destruct (obj_has k o); [apply obj_update_elem|].
  destruct (array_index k).
  - rewrite obj_insert_index_perm, elem_of_cons. tauto.
  - rewrite elem_of_app, list_elem_of_singleton. tauto.
Qed.

Lemma obj_set_NoDup k v o : NoDup o.*1 → NoDup (obj_set k v o).*1.
Proof.
  intros Hnd. unfold obj_set. case_decide; [done|].
  destruct (obj_has k o) eqn:Hhas.
  - by rewrite obj_update_keys.
  - apply obj_has_false in Hhas. destruct (array_index k).
    + rewrite obj_insert_index_perm. csimpl. by constructor.
    + rewrite fmap_app. csimpl. apply NoDup_app. split_and!; [done| |apply NoDup_singleton].
      intros x Hx ->%list_elem_of_singleton. done.
Qed.

(** Reading an own property back. *)
Lemma obj_get_elem k v o : NoDup o.*1 → (k, v) ∈ o → obj_get k o = Some v.
Proof.
  induction o as [|[k0 v0] o IH]; simpl; [by intros _ ?%elem_of_nil|].
  intros [Hk0 Hnd]%NoDup_cons [[= -> ->]|Hin]%elem_of_cons.
  - by rewrite decide_True.
  - rewrite decide_False; [by apply IH|].
    intros ->. apply Hk0. by apply (list_elem_of_fmap_2 fst) in Hin.
Qed.

Lemma obj_get_Some k v o : obj_get k o = Some v → (k, v) ∈ o.
Proof.
  induction o as [|[k0 v0] o IH]; simpl; [done|].
  case_decide; [intros [= ->]; subst; left | right; auto].
Qed.

End ObjectFacts.

(** ** Documents *)


(** The nested loops written out as the functions on entry lists. *)
Lemma flatten_entry_unfold key type name text children path result :
  flatten_entry key (Node.Build type name text children) path result =
  if decide (type = Some "snippet") then
    obj_set (join (path ++ [key]))
      (snippet_entry (Node.Build type name text children) path (path ++ [key]))
      result
  else if decide (type = Some "folder") then
    match children with
    | Some entries => flattenSnippets entries (path ++ [key]) result
    | None => result
    end
  else result.
Proof.
  simpl. repeat case_decide; try done.
  all: destruct children as [entries|]; [|done]; revert result.
  all: induction entries as [|[k v] rest IH]; intros result; [done|]; apply IH.
Qed.

Lemma snippets_of_unfold key type name text children path :
  snippets_of key (Node.Build type name text children) path =
  if decide (type = Some "snippet")
  then [(path, key, Node.Build type name text children)]
  else match children with
       | Some entries => snippet_nodes entries (path ++ [key])
       | None => []
       end.
Proof.
  simpl. case_decide; [done|]. destruct children as [entries|]; try done.
  all: induction entries as [|[k v] rest IH]; [done|]; simpl; by rewrite IH.
Qed.

Lemma count_snippets_node_unfold type name text children :
  count_snippets_node (Node.Build type name text children) =
  if decide (type = Some "snippet") then 1%nat
  else match children with
       | Some entries => count_snippets entries
       | None => 0%nat
       end.
Proof.
  simpl. case_decide; [done|]. destruct children as [entries|]; try done.
  all: induction entries as [|[k v] rest IH]; [done|]; simpl; by rewrite IH.
Qed.

Lemma well_formed_node_unfold type name text children :
  well_formed_node (Node.Build type name text children) =
  if decide (type = Some "snippet") then
    bool_decide (is_Some name) && bool_decide (is_Some text)
  else if decide (type = Some "folder") then
    match children with
    | Some entries => well_formed entries
    | None => false
    end
  else false.
Proof.
  simpl. repeat case_decide; try done.
  all: destruct children as [entries|]; [|done].
  all: induction entries as [|[k v] rest IH]; [done|]; simpl; by rewrite IH.
Qed.

Lemma sibling_keys_unique_node_unfold type name text children :
  sibling_keys_unique_node (Node.Build type name text children) =
  match children with
  | Some entries => sibling_keys_unique entries
  | None => true
  end.
Proof.
  simpl. destruct children as [entries|]; try done.
  all: unfold sibling_keys_unique; f_equal.
  all: induction entries as [|[k v] rest IH]; [done|]; simpl; by rewrite IH.
Qed.

Lemma keys_slash_free_node_unfold type name text children :
  keys_slash_free_node (Node.Build type name text children) =
  match children with
  | Some entries => keys_slash_free entries
  | None => true
  end.
Proof.
  simpl. destruct children as [entries|]; try done.
  all: induction entries as [|[k v] rest IH]; [done|]; simpl; by rewrite IH.
Qed.

Lemma well_formed_Forall entries :
  well_formed entries = true ↔
  Forall (λ kv, well_formed_node kv.2 = true) entries.
Proof.
  induction entries as [|[k v] rest IH]; simpl.
  - split; [constructor | done].
  - rewrite andb_true_iff, Forall_cons, IH. done.
Qed.

(** *** An invariant principle for the indexer *)

Section FlattenInvariant.
Variable Q : node → Prop.
Variable I : obj IndexEntry → Prop.
Hypothesis Q_children : ∀ type name text entries,
  Q (Node.Build type name text (Some entries)) →
  type ≠ Some "snippet" → Forall (λ kv, Q kv.2) entries.
Hypothesis I_set : ∀ value path key o,
  Q value → Node.type value = Some "snippet" → I o →
  I (obj_set (join (path ++ [key])) (snippet_entry value path (path ++ [key])) o).

Lemma flatten_entry_invariant value :
  ∀ key path result,
    Q value → I result → I (flatten_entry key value path result).
Proof using Q_children I_set.
  induction value as [type name text|type name text entries IH]
    using node_children_ind; intros key path result HQ HI;
    rewrite flatten_entry_unfold; repeat case_decide; auto.
  subst type. apply Q_children in HQ; [|done].
  revert result HI. generalize (path ++ [key]) as path'.
  induction entries as [|[k v] rest IHrest]; intros path' result HI; [done|].
  apply Forall_cons in IH as [IHv IH]. apply Forall_cons in HQ as [HQv HQ].
  simpl. apply IHrest; auto.
Qed.

Lemma flattenSnippets_invariant entries :
  ∀ path result,
    Forall (λ kv, Q kv.2) entries → I result →
    I (flattenSnippets entries path result).
Proof using Q_children I_set.
  induction entries as [|[k v] rest IH]; intros path result HQ HI; [done|].
  apply Forall_cons in HQ as [HQv HQ]. simpl.
  apply IH; [done|]. by apply flatten_entry_invariant.
Qed.
End FlattenInvariant.

(** ** The flat index *)


(** Every index the indexer builds has distinct keys, and each entry
    sits under the join of its own path. *)
Lemma flattenSnippets_keyed_by_path entries path result :
  keyed_by_path result → keyed_by_path (flattenSnippets entries path result).
Proof.
  apply (flattenSnippets_invariant (λ _, True) keyed_by_path).
  - intros ???? _ _. by apply Forall_true.
  - intros value p key o _ _ [Hnd Hkey]. split; [by apply obj_set_NoDup|].
    intros k e [[= -> ->]|?]%obj_set_elem; auto.
  - by apply Forall_true.
Qed.

Lemma constructor_keyed_by_path jsonData this :
  constructor jsonData = Returned this → keyed_by_path (flatSnippets this).
Proof.
  unfold constructor. destruct (snippets jsonData); [|done]. intros [= <-].
  apply flattenSnippets_keyed_by_path. split; [constructor|].
  by intros ?? ?%elem_of_nil.
Qed.

Lemma hello_library_constructed : constructor hello_document = Returned hello_library.
Proof. reflexivity. Qed.

(** C6: every entry of the flat index is returned by the exact lookup of
    its own slash-joined path string. *)
Theorem getSnippet_roundtrip jsonData this i k e :
  constructor jsonData = Returned this →
  Object_entries (flatSnippets this) !! i = Some (k, e) →
  join (Entry.path e) = k ∧ getSnippet this (join (Entry.path e)) = Some e.
Proof.
  intros [Hnd Hkey]%constructor_keyed_by_path Hi.
  apply list_elem_of_lookup_2 in Hi. unfold Object_entries in Hi.
  rewrite (Hkey _ _ Hi). split; [done|]. by apply obj_get_elem.
Qed.

Lemma getSnippet_roundtrip_witness :
  join (Entry.path hello_world_entry) = "B/C/Hello World" ∧
  getSnippet hello_library (join (Entry.path hello_world_entry))
    = Some hello_world_entry.
Proof.
  apply (getSnippet_roundtrip hello_document hello_library 1);
    reflexivity.
Defined.

(** ** Folder listing *)

Lemma string_app_assoc (a b c : string) : (a +:+ b) +:+ c = a +:+ (b +:+ c).
Proof. induction a as [|x a IH]; [done|]. exact (f_equal (String x) IH). Qed.

Lemma string_app_length (a b : string) :
  String.length (a +:+ b) = (String.length a + String.length b)%nat.
Proof. induction a as [|x a IH]; [done|]. exact (f_equal S IH). Qed.


Lemma getSnippetsInFolder_filter this folderPath :
  getSnippetsInFolder this folderPath =
  located <$> filter (under_folder folderPath) (Object_entries (flatSnippets this)).
Proof.
  unfold getSnippetsInFolder, Object_entries.
  generalize (flatSnippets this) as entries.
  enough (∀ entries results,
    (fix loop (entries : list (string * IndexEntry)) (results : list Located) :=
       match entries with
       | [] => results
       | (path, snippet) :: rest =>
           loop rest
             (if startsWith path (folderPath +:+ "/")
              then results ++ [{| snippet := snippet; fullPath := path |}]
              else results)
       end) entries results
    = results ++ (located <$> filter (under_folder folderPath) entries))
    as Hloop by (intros; by rewrite Hloop).
  induction entries as [|[path snippet] rest IH]; intros results.
  - by rewrite app_nil_r.
  - rewrite IH, filter_cons.
    case_decide as Hpre; unfold under_folder in Hpre; simpl in Hpre.
    + rewrite Hpre. by rewrite <-app_assoc.
    + by apply not_true_is_false in Hpre as ->.
Qed.

(** C7: the folder listing holds exactly the entries whose path string
    is [folderPath], a ["/"], and a remainder, in index order; the entry
    at [folderPath] itself is left out and one at [folderPath/B] is in. *)
Theorem getSnippetsInFolder_spec this folderPath :
  let entries := Object_entries (flatSnippets this) in
  let listed := getSnippetsInFolder this folderPath in
  listed = located <$> filter (under_folder folderPath) entries ∧
  (∀ r, r ∈ listed ↔
        (fullPath r, snippet r) ∈ entries ∧
        ∃ rest, fullPath r = folderPath +:+ "/" +:+ rest) ∧
  (∀ r, r ∈ listed → fullPath r ≠ folderPath) ∧
  (∀ e, (folderPath +:+ "/B", e) ∈ entries →
        {| snippet := e; fullPath := folderPath +:+ "/B" |} ∈ listed).
Proof.
  intros entries listed.
  assert (Hmem : ∀ r, r ∈ listed ↔
            (fullPath r, snippet r) ∈ entries ∧
            ∃ rest, fullPath r = folderPath +:+ "/" +:+ rest).
  { intros [e p]. subst listed. rewrite getSnippetsInFolder_filter.
    rewrite list_elem_of_fmap. simpl. split.
    - intros [[k v] [[= -> ->] [Hpre Hin]%list_elem_of_filter]].
      split; [done|]. apply startsWith_app in Hpre as [rest Hrest].
      exists rest. simpl in Hrest. by rewrite Hrest, string_app_assoc.
    - intros [Hin [rest Hrest]]. exists (p, e). split; [done|].
      apply list_elem_of_filter. split; [|done].
      apply startsWith_app. exists rest. simpl.
      by rewrite Hrest, string_app_assoc. }
  split_and!; [apply getSnippetsInFolder_filter | done | |].
  - intros r [_ [rest Hrest]]%Hmem Heq. rewrite Heq in Hrest.
    apply (f_equal String.length) in Hrest.
    rewrite !string_app_length in Hrest. simpl in Hrest. lia.
  - intros e Hin. apply Hmem. simpl. split; [done|]. by exists "B".
Qed.

(** ** Scoring *)

Lemma calculateRelevanceScore_spec snippet name query path :
  Entry.name snippet = Some name →
  calculateRelevanceScore snippet (toLowerCase query) path
  = Returned (spec_score name path query).
Proof.
  intros Hname. unfold calculateRelevanceScore, spec_score. rewrite Hname.
  simpl. f_equal. unfold equals_ci, contains_ci. rewrite split_length.
  case_decide as Heq.
  - rewrite bool_decide_eq_true_2 by done.
    destruct (includes (toLowerCase path) (toLowerCase query)); lia.
  - rewrite bool_decide_eq_false_2 by done.
    destruct (includes (toLowerCase name) (toLowerCase query)),
      (includes (toLowerCase path) (toLowerCase query)); lia.
Qed.

Lemma strings_defined_cons path snippet rest :
  strings_defined ((path, snippet) :: rest) = true →
  (∃ name text, Entry.name snippet = Some name ∧ Entry.text snippet = Some text)
  ∧ strings_defined rest = true.
Proof.
  unfold strings_defined. simpl.
  rewrite !andb_true_iff, !bool_decide_eq_true.
  intros [[[name ->] [text ->]] ?]. eauto.
Qed.

(** ** The search loop *)

Section SearchLoop.
Variables (query : string) (options : Options.t).

Let lowerQuery := toLowerCase query.
Let searchInText := default false (Options.searchInText options).
Let category := Options.category options.
Let maxResults := default 20%Z (Options.maxResults options).

(** One turn of the loop on an entry whose strings are there when they
    are read: the entry is pushed with its score when it passes the
    predicate, and the loop goes on while fewer than [maxResults]
    results are held. *)
Lemma search_loop_step path snippet rest results name :
  Entry.name snippet = Some name →
  (searchInText = true → is_Some (Entry.text snippet)) →
  search_loop lowerQuery searchInText category maxResults
    ((path, snippet) :: rest) results =
  let results' :=
    results ++ (if passes query options (path, snippet)
                then [result_of query (path, snippet)] else []) in
  if (maxResults <=? Z.of_nat (length results'))%Z then Returned results'
  else search_loop lowerQuery searchInText category maxResults rest results'.
Proof.
  intros Hname Htext. cbn [search_loop].
  unfold passes, contains_ci_opt. rewrite Hname. cbn [toLowerCase_of bind].
  fold lowerQuery searchInText category. unfold contains_ci. fold lowerQuery.
  assert (Hscore : calculateRelevanceScore snippet lowerQuery path
                   = Returned (score (result_of query (path, snippet)))).
  { unfold result_of, score_of. simpl. rewrite Hname. simpl.
    by apply calculateRelevanceScore_spec. }
  destruct searchInText.
  - destruct Htext as [text ->]; [done|]. cbn [toLowerCase_of bind].
    destruct (includes (toLowerCase name) lowerQuery),
      (includes (toLowerCase path) lowerQuery),
      (includes (toLowerCase text) lowerQuery),
      (category_rejects category snippet); cbn [bind orb andb negb];
      rewrite ?Hscore; cbn [bind]; rewrite ?app_nil_r; reflexivity.
  - destruct (includes (toLowerCase name) lowerQuery),
      (includes (toLowerCase path) lowerQuery),
      (category_rejects category snippet); cbn [bind orb andb negb];
      rewrite ?Hscore; cbn [bind]; rewrite ?app_nil_r; reflexivity.
Qed.

(** A loop that returns has read the strings of the entry it began
    with. *)
Lemma search_loop_returned path snippet rest results out :
  search_loop lowerQuery searchInText category maxResults
    ((path, snippet) :: rest) results = Returned out →
  (∃ name, Entry.name snippet = Some name) ∧
  (searchInText = true → is_Some (Entry.text snippet)).
Proof.
  cbn [search_loop]. destruct (Entry.name snippet) as [name|]; [|done].
  intros Hout. split; [by eexists|]. intros Hsit. rewrite Hsit in Hout.
  cbn [toLowerCase_of bind] in Hout.
  by destruct (Entry.text snippet).
Qed.

(** Whatever a loop returns beyond the results it was given passes the
    predicate and carries the score of the specification. *)
Lemma search_loop_sound entries : ∀ results out,
  search_loop lowerQuery searchInText category maxResults entries results
    = Returned out →
  ∃ pushed, out = results ++ pushed ∧
    Forall (λ r, passes query options (entry_of r) = true ∧
                 r = result_of query (entry_of r) ∧
                 is_Some (Entry.name (snippet (hit r)))) pushed.
Proof.
  induction entries as [|[path entry] rest IH]; intros results out Hout.
  - injection Hout as <-. exists []. by rewrite app_nil_r.
  - destruct (search_loop_returned _ _ _ _ _ Hout) as [[name Hname] Htext].
    rewrite (search_loop_step _ _ _ _ name) in Hout by done. cbn zeta in Hout.
    assert (Hhere : Forall (λ r, passes query options (entry_of r) = true ∧
                      r = result_of query (entry_of r) ∧
                      is_Some (Entry.name (snippet (hit r))))
              (if passes query options (path, entry)
               then [result_of query (path, entry)] else [])).
    { destruct (passes query options (path, entry)) eqn:Hpass;
        repeat constructor; simpl; eauto. }
    destruct (_ <=? _)%Z.
    + injection Hout as <-. eauto.
    + apply IH in Hout as (pushed & -> & Hpushed).
      eexists. rewrite <-app_assoc. split; [done|]. by apply Forall_app.
Qed.

(** The loop in closed form: below the cap it gathers the first matches
    up to the cap; at or above the cap it still looks at one entry. *)
Lemma search_loop_closed entries : ∀ results,
  strings_defined entries = true →
  search_loop lowerQuery searchInText category maxResults entries results =
  Returned (results ++
    if (Z.of_nat (length results) <? maxResults)%Z
    then take (Z.to_nat maxResults - length results)
           (result_of query <$> filter (λ kv, passes query options kv = true) entries)
    else first_hit query options entries).
Proof.
  induction entries as [|[path snippet] rest IH]; intros results Hdef.
  - simpl. rewrite take_nil. destruct (_ <? _)%Z; by rewrite app_nil_r.
  - apply strings_defined_cons in Hdef as [(name & text & Hname & Htext) Hdef].
    rewrite (search_loop_step _ _ _ _ name) by (by rewrite ?Htext). cbn zeta.
    unfold first_hit.
    destruct (passes query options (path, snippet)) eqn:Hpass.
    + rewrite filter_cons_True by done. rewrite length_app. cbn [length].
      destruct (Z.leb_spec maxResults (Z.of_nat (length results + 1))) as [Hle|Hlt].
      * destruct (Z.ltb_spec (Z.of_nat (length results)) maxResults) as [Hlt'|Hge'];
          [|done].
        replace (Z.to_nat maxResults - length results)%nat with 1%nat by lia.
        rewrite fmap_cons. cbn [take]. by rewrite take_0.
      * rewrite IH by done. rewrite length_app. cbn [length].
        destruct (Z.ltb_spec (Z.of_nat (length results + 1)) maxResults); [|lia].
        destruct (Z.ltb_spec (Z.of_nat (length results)) maxResults); [|lia].
        rewrite <-app_assoc. f_equal. rewrite fmap_cons.
        replace (Z.to_nat maxResults - length results)%nat
          with (S (Z.to_nat maxResults - (length results + 1)))%nat by lia.
        done.
    + rewrite filter_cons_False by (by rewrite Hpass). rewrite app_nil_r.
      destruct (Z.leb_spec maxResults (Z.of_nat (length results))) as [Hle|Hlt].
      * destruct (Z.ltb_spec (Z.of_nat (length results)) maxResults); [lia|].
        by rewrite app_nil_r.
      * rewrite IH by done.
        by destruct (Z.ltb_spec (Z.of_nat (length results)) maxResults); [|lia].
Qed.

End SearchLoop.

(** ** Sorting *)

Section SortFacts.
Context {A : Type} (compare : A → A → Z).

Lemma sort_insert_perm x l : sort_insert compare x l ≡ₚ x :: l.
Proof.
  induction l as [|y l IH]; simpl; [done|].
  destruct (0 <? compare x y)%Z; [|done]. rewrite IH. apply Permutation_swap.
Qed.

Lemma Array_sort_perm l : Array_sort compare l ≡ₚ l.
Proof.
  induction l as [|x l IH]; simpl; [done|].
  by rewrite sort_insert_perm, IH.
Qed.
End SortFacts.

Lemma sort_insert_descending x l :
  StronglySorted descending l →
  StronglySorted descending (sort_insert by_score_desc x l).
Proof.
  induction 1 as [|y l Hsorted IH Hy]; simpl; [repeat constructor|].
  unfold by_score_desc at 1.
  destruct (Z.ltb_spec 0 (score y - score x)) as [Hlt|Hge].
  - constructor; [done|]. rewrite sort_insert_perm. constructor; [|done].
    unfold descending. lia.
  - constructor; [by constructor|]. constructor; [unfold descending; lia|].
    eapply Forall_impl; [exact Hy|]. unfold descending. intros z ?. lia.
Qed.

Lemma Array_sort_descending l :
  StronglySorted descending (Array_sort by_score_desc l).
Proof.
  induction l as [|x l IH]; simpl; [constructor|].
  by apply sort_insert_descending.
Qed.

(** Insertion never passes an element of equal score. *)
Lemma sort_insert_has_score s x l :
  filter (has_score s) (sort_insert by_score_desc x l)
  = filter (has_score s) (x :: l).
Proof.
  induction l as [|y l IH]; simpl; [done|].
  unfold by_score_desc at 1.
  destruct (Z.ltb_spec 0 (score y - score x)) as [Hlt|Hge]; [|done].
  rewrite (filter_cons _ y), IH, !filter_cons. unfold has_score.
  repeat case_decide; try done; lia.
Qed.

(** Stability: results of one score keep their order. *)
Lemma Array_sort_stable s l :
  filter (has_score s) (Array_sort by_score_desc l) = filter (has_score s) l.
Proof.
  induction l as [|x l IH]; simpl; [done|].
  by rewrite sort_insert_has_score, !filter_cons, IH.
Qed.

(** ** Search *)

(** In closed form: the candidates are the first [maxResults] matches in
    iteration order when [maxResults] is positive. *)
Lemma searchSnippets_capped this query options :
  strings_defined (Object_entries (flatSnippets this)) = true →
  (0 < default 20 (Options.maxResults options))%Z →
  searchSnippets this query options =
  Returned (Array_sort by_score_desc
    (take (Z.to_nat (default 20%Z (Options.maxResults options)))
       (result_of query <$>
          matching query options (Object_entries (flatSnippets this))))).
Proof.
  intros Hdef Hpos. unfold searchSnippets.
  rewrite search_loop_closed by done. cbn [bind length app].
  destruct (Z.ltb_spec (Z.of_nat 0) (default 20%Z (Options.maxResults options)));
    [|lia].
  by rewrite Nat.sub_0_r.
Qed.

(** With a cap of zero or less the loop still looks at one entry. *)
Lemma searchSnippets_cap_met this query options :
  strings_defined (Object_entries (flatSnippets this)) = true →
  (default 20 (Options.maxResults options) ≤ 0)%Z →
  searchSnippets this query options =
  Returned (Array_sort by_score_desc
    (first_hit query options (Object_entries (flatSnippets this)))).
Proof.
  intros Hdef Hpos. unfold searchSnippets.
  rewrite search_loop_closed by done. cbn [bind length app].
  by destruct (Z.ltb_spec (Z.of_nat 0) (default 20%Z (Options.maxResults options)));
    [lia|].
Qed.

(** What every search gathers: matches, in iteration order, each with
    the score the specification gives it. *)
Lemma searchSnippets_candidates this query options :
  strings_defined (Object_entries (flatSnippets this)) = true →
  ∃ candidates,
    searchSnippets this query options
      = Returned (Array_sort by_score_desc candidates) ∧
    candidates `sublist_of`
      (result_of query <$>
         matching query options (Object_entries (flatSnippets this))).
Proof.
  intros Hdef.
  destruct (Z.lt_ge_cases 0 (default 20%Z (Options.maxResults options))).
  - eexists. split; [by apply searchSnippets_capped|]. apply sublist_take.
  - eexists. split; [apply searchSnippets_cap_met; [done|lia]|].
    unfold first_hit, matching.
    destruct (Object_entries (flatSnippets this)) as [|kv rest];
      [apply sublist_nil_l|].
    destruct (passes query options kv) eqn:Hpass.
    + rewrite filter_cons_True by done. rewrite fmap_cons.
      apply sublist_skip, sublist_nil_l.
    + apply sublist_nil_l.
Qed.

Lemma strings_defined_elem entries k e :
  strings_defined entries = true → (k, e) ∈ entries →
  ∃ name text, Entry.name e = Some name ∧ Entry.text e = Some text.
Proof.
  induction entries as [|[k' e'] rest IH]; [by intros _ ?%elem_of_nil|].
  intros [Hhere Hrest]%strings_defined_cons [[= -> ->]|Hin]%elem_of_cons; auto.
Qed.

Lemma entry_of_result_of query kv : entry_of (result_of query kv) = kv.
Proof. by destruct kv. Qed.

Lemma matching_sublist query options entries :
  matching query options entries `sublist_of` entries.
Proof. apply sublist_filter. Qed.

(** C1: every result of a search passes the search predicate and carries
    the score 0, plus 100 for a name equal to the query or else 50 for a
    name containing it, plus 25 for a path string containing it, minus
    the number of segments of the path string, all case-insensitively. *)
Theorem search_result_score this query options results i r :
  searchSnippets this query options = Returned results →
  results !! i = Some r →
  passes query options (entry_of r) = true ∧
  ∃ name, Entry.name (snippet (hit r)) = Some name ∧
    score r = spec_score name (fullPath (hit r)) query.
Proof.
  unfold searchSnippets. intros Hsearch Hr.
  destruct (search_loop _ _ _ _ _ _) as [found|] eqn:Hloop; [|done].
  cbn [bind] in Hsearch. injection Hsearch as <-.
  apply search_loop_sound in Hloop as (pushed & -> & Hpushed).
  apply list_elem_of_lookup_2 in Hr. rewrite Array_sort_perm in Hr.
  rewrite Forall_forall in Hpushed.
  destruct (Hpushed _ Hr) as (Hpass & Heq & [name Hname]).
  split; [done|]. exists name. split; [done|].
  rewrite Heq at 1. simpl. unfold score_of. simpl. by rewrite Hname.
Qed.

Lemma search_result_score_witness :
  passes "Hello" Options.empty
    (entry_of (scored ("B/C/Hello World", hello_world_entry) 72)) = true ∧
  ∃ name,
    Entry.name (snippet (hit (scored ("B/C/Hello World", hello_world_entry) 72)))
      = Some name ∧
    score (scored ("B/C/Hello World", hello_world_entry) 72)
      = spec_score name
          (fullPath (hit (scored ("B/C/Hello World", hello_world_entry) 72)))
          "Hello".
Proof.
  apply (search_result_score hello_library "Hello" Options.empty
           [scored ("A/Hello", hello_entry) 123;
            scored ("B/C/Hello World", hello_world_entry) 72] 1);
    reflexivity.
Defined.

(** C2 as stated fails at a cap of zero: the loop tests the cap only
    after it has pushed, so one match is returned where the first zero
    matches are none. *)
Lemma searchSnippets_zero_cap :
  searchSnippets hello_library "Hello" (cap 0)
    = Returned [scored ("A/Hello", hello_entry) 123] ∧
  Array_sort by_score_desc
    (take (Z.to_nat 0)
       (result_of "Hello" <$>
          matching "Hello" (cap 0) (Object_entries (flatSnippets hello_library))))
    = [].
Proof. split; reflexivity. Qed.

(** C2, amended: with a positive [maxResults] the search stops gathering
    once it holds [maxResults] matches of the scan in iteration order
    and only then sorts; the output is the score-descending ordering of
    those first matches, which need not be the best [maxResults] of all
    matches. *)
Theorem search_cap_before_sort this query options :
  strings_defined (Object_entries (flatSnippets this)) = true →
  (0 < default 20 (Options.maxResults options))%Z →
  searchSnippets this query options =
    Returned (Array_sort by_score_desc
      (take (Z.to_nat (default 20%Z (Options.maxResults options)))
         (result_of query <$>
            matching query options (Object_entries (flatSnippets this))))) ∧
  searchSnippets hello_library_swapped "Hello" (cap 1) ≠
    Returned (take 1 (Array_sort by_score_desc
      (result_of "Hello" <$>
         matching "Hello" (cap 1)
           (Object_entries (flatSnippets hello_library_swapped))))).
Proof.
  intros Hdef Hpos. split; [by apply searchSnippets_capped|].
  vm_compute. discriminate.
Qed.

Lemma search_cap_before_sort_witness :
  searchSnippets hello_library_swapped "Hello" (cap 1) =
    Returned (Array_sort by_score_desc
      (take (Z.to_nat (default 20%Z (Options.maxResults (cap 1))))
         (result_of "Hello" <$>
            matching "Hello" (cap 1)
              (Object_entries (flatSnippets hello_library_swapped))))) ∧
  searchSnippets hello_library_swapped "Hello" (cap 1) ≠
    Returned (take 1 (Array_sort by_score_desc
      (result_of "Hello" <$>
         matching "Hello" (cap 1)
           (Object_entries (flatSnippets hello_library_swapped))))).
Proof.
  apply (search_cap_before_sort hello_library_swapped "Hello" (cap 1));
    reflexivity.
Defined.

(** C3: the results are in descending score order, and results of equal
    score stand in the order of the index. *)
Theorem search_sorted_stable this query options :
  strings_defined (Object_entries (flatSnippets this)) = true →
  ∃ results,
    searchSnippets this query options = Returned results ∧
    StronglySorted descending results ∧
    ∀ s, (entry_of <$> filter (has_score s) results)
           `sublist_of` Object_entries (flatSnippets this).
Proof.
  intros Hdef.
  destruct (searchSnippets_candidates this query options Hdef)
    as (candidates & Heq & Hsub).
  eexists. split; [exact Heq|]. split; [apply Array_sort_descending|].
  intros s. rewrite Array_sort_stable.
  trans (entry_of <$> candidates).
  { apply fmap_sublist, sublist_filter. }
  trans (matching query options (Object_entries (flatSnippets this)));
    [|apply matching_sublist].
  apply (fmap_sublist entry_of) in Hsub.
  rewrite <-list_fmap_compose in Hsub.
  rewrite (list_fmap_ext _ id) in Hsub by (intros ? []; done).
  by rewrite list_fmap_id in Hsub.
Qed.

Lemma search_sorted_stable_witness :
  ∃ results,
    searchSnippets hello_library_swapped "o" Options.empty = Returned results ∧
    StronglySorted descending results ∧
    ∀ s, (entry_of <$> filter (has_score s) results)
           `sublist_of` Object_entries (flatSnippets hello_library_swapped).
Proof. apply (search_sorted_stable hello_library_swapped "o"). reflexivity. Defined.

(** ** Scenario: an exact and a partial name match *)

Lemma hello_library_swapped_constructed :
  constructor hello_document_swapped = Returned hello_library_swapped.
Proof. reflexivity. Qed.

(** C8 as stated fails: the scores are not 99 and 48. *)
Lemma search_hello_not_99_48 :
  searchSnippets hello_library "Hello" Options.empty
  ≠ Returned [scored ("A/Hello", hello_entry) 99;
              scored ("B/C/Hello World", hello_world_entry) 48].
Proof. vm_compute. discriminate. Qed.

(** C8, amended: on the index holding "Hello" at "A/Hello" and
    "Hello World" at "B/C/Hello World", in either order, the search for
    "Hello" scores the exact match 100 + 25 - 2 = 123 and the partial
    match 50 + 25 - 3 = 72, and puts the exact match first. *)
Theorem search_hello_scores :
  searchSnippets hello_library "Hello" Options.empty
    = Returned [scored ("A/Hello", hello_entry) (100 + 25 - 2);
                scored ("B/C/Hello World", hello_world_entry) (50 + 25 - 3)] ∧
  searchSnippets hello_library_swapped "Hello" Options.empty
    = Returned [scored ("A/Hello", hello_entry) (100 + 25 - 2);
                scored ("B/C/Hello World", hello_world_entry) (50 + 25 - 3)] ∧
  segment_count "A/Hello" = 2%nat ∧
  segment_count "B/C/Hello World" = 3%nat.
Proof. repeat split; reflexivity. Qed.

(** ** The empty query *)





(** An entry whose name is the empty string equals the empty query and
    is scored as an exact match: 100, not 50. *)
Lemma search_empty_query_unnamed :
  searchSnippets unnamed_library "" Options.empty
  ≠ Returned (Array_sort by_score_desc
      (empty_query_result_flat <$>
         take 20 (Object_entries (flatSnippets unnamed_library)))).
Proof. vm_compute. discriminate. Qed.

(** ** The empty query on named entries *)






(** ** Options are not validated *)

Lemma strings_defined_Forall entries :
  strings_defined entries = true ↔
  Forall (λ kv, is_Some (Entry.name kv.2) ∧ is_Some (Entry.text kv.2)) entries.
Proof.
  unfold strings_defined. rewrite forallb_forall, Forall_forall.
  split; intros H kv Hin.
  - apply list_elem_of_In, H in Hin.
    by rewrite andb_true_iff, !bool_decide_eq_true in Hin.
  - apply list_elem_of_In, H in Hin.
    by rewrite andb_true_iff, !bool_decide_eq_true.
Qed.

(** The index of a well-formed document holds the strings that the
    search reads. *)
Lemma flattenSnippets_strings_defined entries path result :
  well_formed entries = true →
  strings_defined result = true →
  strings_defined (flattenSnippets entries path result) = true.
Proof.
  intros Hwf%well_formed_Forall.
  apply (flattenSnippets_invariant (λ v, well_formed_node v = true)
           (λ o, strings_defined o = true)); [| |done].
  - intros type name text children Hnode Htype.
    rewrite well_formed_node_unfold in Hnode.
    rewrite decide_False in Hnode by done. case_decide; [|done].
    by apply well_formed_Forall.
  - intros [type name text children] p key o Hnode Htype Ho. simpl in Htype.
    rewrite well_formed_node_unfold, decide_True in Hnode by done.
    apply andb_true_iff in Hnode as [Hname%bool_decide_eq_true Htext%bool_decide_eq_true].
    rewrite strings_defined_Forall, Forall_forall in Ho |- *.
    intros [k e] [[= -> ->]|Hin]%obj_set_elem; [done|by apply Ho].
Qed.

(** C9 as stated fails: on the index built from a document of
    well-formed nodes a negative [maxResults] is not refused. *)
Lemma search_negative_cap_returns :
  well_formed [("A", folder_node [("Hello", snippet_node "Hello" "x")]);
               ("B", folder_node
                       [("C", folder_node
                                [("Hello World",
                                  snippet_node "Hello World" "y")])])] = true ∧
  constructor hello_document = Returned hello_library ∧
  searchSnippets hello_library "Hello" (cap (-1))
    = Returned [scored ("A/Hello", hello_entry) 123] ∧
  ∀ e, searchSnippets hello_library "Hello" (cap (-1)) ≠ Threw e.
Proof. repeat split; try reflexivity. intros e. vm_compute. discriminate. Qed.

(** ** One entry per snippet *)

(** Induction over a document: a property of nodes and a property of
    children mappings, proved together. *)
Lemma document_ind (P : node → Prop) (Pl : list (string * node) → Prop) :
  (∀ type name text, P (Node.Build type name text None)) →
  (∀ type name text entries,
     Pl entries → P (Node.Build type name text (Some entries))) →
  Pl [] →
  (∀ key value rest, P value → Pl rest → Pl ((key, value) :: rest)) →
  (∀ value, P value) ∧ (∀ entries, Pl entries).
Proof.
  intros Hleaf Hinner Hnil Hcons.
  assert (Hlist : ∀ entries, Forall (λ kv, P kv.2) entries → Pl entries).
  { induction 1 as [|[k v] rest Hv _ IH]; auto. }
  assert (Hnode : ∀ value, P value).
  { induction value using node_children_ind; auto. }
  split; [done|]. intros entries. apply Hlist, Forall_forall. auto.
Qed.

Lemma path_string_full_path s : path_string s = join (full_path s).
Proof. by destruct s as [[path key] value]. Qed.

Lemma index_pair_key s : (index_pair s).1 = path_string s.
Proof. by destruct s as [[path key] value]. Qed.

Lemma index_pair_keys l : (index_pair <$> l).*1 = path_string <$> l.
Proof.
  rewrite <-list_fmap_compose. apply list_fmap_ext. intros _ s _.
  apply index_pair_key.
Qed.

(** The number of snippet nodes is the length of their listing. *)
Lemma snippet_nodes_length :
  (∀ value key path,
     length (snippets_of key value path) = count_snippets_node value) ∧
  (∀ entries path,
     length (snippet_nodes entries path) = count_snippets entries).
Proof.
  apply document_ind.
  - intros type name text key path.
    rewrite snippets_of_unfold, count_snippets_node_unfold.
    by case_decide.
  - intros type name text entries IH key path.
    rewrite snippets_of_unfold, count_snippets_node_unfold.
    by case_decide.
  - done.
  - intros key value rest IHv IHrest path. simpl.
    by rewrite length_app, IHv, IHrest.
Qed.

(** Every snippet below a key has a full path through that key, and
    the keys added on the way hold no separator. *)
Lemma snippet_nodes_prefix :
  (∀ value key path s,
     keys_slash_free_node value = true →
     s ∈ snippets_of key value path →
     ∃ tail, full_path s = path ++ key :: tail ∧
             Forall (λ k, slash_free k = true) tail) ∧
  (∀ entries path s,
     keys_slash_free entries = true →
     s ∈ snippet_nodes entries path →
     ∃ key tail, key ∈ entries.*1 ∧ full_path s = path ++ key :: tail ∧
                 Forall (λ k, slash_free k = true) (key :: tail)).
Proof.
  apply document_ind.
  - intros type name text key path s _. rewrite snippets_of_unfold.
    case_decide; [|by intros ?%elem_of_nil].
    intros ->%list_elem_of_singleton. by exists [].
  - intros type name text entries IH key path s.
    rewrite snippets_of_unfold, keys_slash_free_node_unfold.
    case_decide.
    + intros _ ->%list_elem_of_singleton. by exists [].
    + intros Hfree Hs.
      destruct (IH _ _ Hfree Hs) as (k & tail & _ & Hpath & Htail).
      exists (k :: tail). by rewrite Hpath, <-app_assoc.
  - by intros path s _ ?%elem_of_nil.
  - intros key value rest IHv IHrest path s. simpl.
    rewrite !andb_true_iff, elem_of_app. intros [[Hkey Hv] Hrest] [Hs|Hs].
    + destruct (IHv _ _ _ Hv Hs) as (tail & Hpath & Htail).
      exists key, tail. split_and!; [left|done|by constructor].
    + destruct (IHrest _ _ Hrest Hs) as (k & tail & Hk & Hpath & Htail).
      exists k, tail. split_and!; [by right|done|done].
Qed.

(** With unique sibling keys, distinct snippets have distinct paths. *)
Lemma snippet_nodes_NoDup :
  (∀ value key path,
     sibling_keys_unique_node value = true →
     keys_slash_free_node value = true →
     NoDup (full_path <$> snippets_of key value path)) ∧
  (∀ entries path,
     sibling_keys_unique entries = true →
     keys_slash_free entries = true →
     NoDup (full_path <$> snippet_nodes entries path)).
Proof.
  apply document_ind.
  - intros type name text key path _ _. rewrite snippets_of_unfold.
    case_decide; [apply NoDup_singleton|constructor].
  - intros type name text entries IH key path.
    rewrite snippets_of_unfold, sibling_keys_unique_node_unfold,
      keys_slash_free_node_unfold.
    case_decide; [intros; apply NoDup_singleton|]. apply IH.
  - constructor.
  - intros key value rest IHv IHrest path. unfold sibling_keys_unique. simpl.
    rewrite !andb_true_iff, bool_decide_eq_true. csimpl.
    intros [[Hkey Hkeys]%NoDup_cons [Huv Hurest]] [[Hfk Hfv] Hfrest].
    rewrite fmap_app. apply NoDup_app. split_and!.
    + by apply IHv.
    + intros p (s1 & -> & Hs1)%list_elem_of_fmap (s2 & Heq & Hs2)%list_elem_of_fmap.
      destruct (proj1 snippet_nodes_prefix _ _ _ _ Hfv Hs1) as (t1 & Hp1 & _).
      destruct (proj2 snippet_nodes_prefix _ _ _ Hfrest Hs2)
        as (k2 & t2 & Hk2 & Hp2 & _).
      rewrite Hp1, Hp2 in Heq. apply app_inv_head in Heq as [= -> _]. done.
    + apply IHrest; [|done]. unfold sibling_keys_unique.
      by rewrite andb_true_iff, bool_decide_eq_true.
Qed.

(** And, the keys holding no separator, distinct path strings. *)
Lemma snippet_nodes_path_strings_NoDup entries :
  sibling_keys_unique entries = true →
  keys_slash_free entries = true →
  NoDup (path_string <$> snippet_nodes entries []).
Proof.
  intros Hunique Hfree.
  rewrite (list_fmap_ext _ (join ∘ full_path))
    by (intros; apply path_string_full_path).
  rewrite list_fmap_compose.
  apply NoDup_fmap_2_strong;
    [|by apply (proj2 snippet_nodes_NoDup)].
  intros p1 p2 (s1 & -> & Hs1)%list_elem_of_fmap
    (s2 & -> & Hs2)%list_elem_of_fmap Hjoin.
  destruct (proj2 snippet_nodes_prefix _ _ _ Hfree Hs1)
    as (k1 & t1 & _ & Hp1 & Hfree1).
  destruct (proj2 snippet_nodes_prefix _ _ _ Hfree Hs2)
    as (k2 & t2 & _ & Hp2 & Hfree2).
  simpl in Hp1, Hp2. rewrite Hp1, Hp2 in Hjoin |- *.
  by apply join_inj in Hjoin.
Qed.

(** On a well-formed document whose snippets have distinct, ordinary
    path strings, the indexer adds exactly the entries of the snippets. *)
Lemma flattenSnippets_perm :
  (∀ value key path result,
     well_formed_node value = true →
     NoDup (result.*1 ++ (path_string <$> snippets_of key value path)) →
     "__proto__" ∉ path_string <$> snippets_of key value path →
     flatten_entry key value path result
     ≡ₚ result ++ (index_pair <$> snippets_of key value path)) ∧
  (∀ entries path result,
     well_formed entries = true →
     NoDup (result.*1 ++ (path_string <$> snippet_nodes entries path)) →
     "__proto__" ∉ path_string <$> snippet_nodes entries path →
     flattenSnippets entries path result
     ≡ₚ result ++ (index_pair <$> snippet_nodes entries path)).
Proof.
  assert (Hsnippet : ∀ value key path (result : obj IndexEntry),
    NoDup (result.*1 ++ (path_string <$> [(path, key, value)])) →
    "__proto__" ∉ path_string <$> [(path, key, value)] →
    obj_set (join (path ++ [key]))
      (snippet_entry value path (path ++ [key])) result
    ≡ₚ result ++ (index_pair <$> [(path, key, value)])).
  { intros value key path result Hnd Hproto. apply obj_set_fresh.
    - intros Heq. apply Hproto, list_elem_of_fmap.
      by exists (path, key, value); split; [|left].
    - apply NoDup_app in Hnd as (_ & Hfresh & _). intros Hin.
      apply (Hfresh _ Hin), list_elem_of_fmap.
      by exists (path, key, value); split; [|left]. }
  apply document_ind.
  - intros type name text key path result.
    rewrite well_formed_node_unfold, flatten_entry_unfold, snippets_of_unfold.
    case_decide; [intros _; apply Hsnippet|]. by case_decide.
  - intros type name text entries IH key path result.
    rewrite well_formed_node_unfold, flatten_entry_unfold, snippets_of_unfold.
    case_decide; [intros _; apply Hsnippet|].
    case_decide; [apply IH|done].
  - intros path result _ _ _. simpl. by rewrite app_nil_r.
  - intros key value rest IHv IHrest path result. simpl.
    rewrite andb_true_iff, !fmap_app, not_elem_of_app.
    intros [Hwfv Hwfrest] Hnd [Hpv Hprest].
    assert (Hv : flatten_entry key value path result
                 ≡ₚ result ++ (index_pair <$> snippets_of key value path)).
    { apply IHv; [done| |done]. rewrite app_assoc in Hnd.
      by apply NoDup_app in Hnd as (? & _ & _). }
    rewrite IHrest; [by rewrite Hv, <-app_assoc|done| |done].
    rewrite Hv, fmap_app, index_pair_keys, <-app_assoc. done.
Qed.

(** C5 as stated fails: the nodes are well-formed and sibling keys are
    unique at every level, yet two snippets share the path string "A/B"
    and one entry is left for them. *)
Lemma slash_document_loses_entry :
  well_formed [("A/B", snippet_node "one" "x");
               ("A", folder_node [("B", snippet_node "two" "y")])] = true ∧
  sibling_keys_unique [("A/B", snippet_node "one" "x");
                       ("A", folder_node [("B", snippet_node "two" "y")])] = true ∧
  constructor slash_document = Returned slash_library ∧
  length (Object_entries (flatSnippets slash_library)) = 1%nat ∧
  count_snippets [("A/B", snippet_node "one" "x");
                  ("A", folder_node [("B", snippet_node "two" "y")])] = 2%nat ∧
  length (Object_entries (flatSnippets slash_library))
  ≠ count_snippets [("A/B", snippet_node "one" "x");
                    ("A", folder_node [("B", snippet_node "two" "y")])].
Proof. repeat split; try reflexivity. vm_compute. discriminate. Qed.

(** A snippet keyed ["__proto__"] at the top level leaves no entry: the
    assignment replaces the prototype of the index object. *)
Lemma proto_document_loses_entry :
  constructor {| snippets := Some [("__proto__", snippet_node "p" "x")] |}
    = Returned {| data := {| snippets :=
                               Some [("__proto__", snippet_node "p" "x")] |};
                  flatSnippets := [] |} ∧
  count_snippets [("__proto__", snippet_node "p" "x")] = 1%nat.
Proof. split; reflexivity. Qed.

(** C5, amended: for a document of well-formed nodes with unique
    sibling keys at every level, no ["/"] in a key and no snippet at the
    path string ["__proto__"], the flat index holds exactly one entry
    per SnippetNode reachable from the root, and nothing for folders. *)
Theorem flat_index_one_entry_per_snippet entries :
  well_formed entries = true →
  sibling_keys_unique entries = true →
  keys_slash_free entries = true →
  no_proto_path entries = true →
  ∃ this,
    constructor {| snippets := Some entries |} = Returned this ∧
    Object_entries (flatSnippets this)
      ≡ₚ index_pair <$> snippet_nodes entries [] ∧
    NoDup (path_string <$> snippet_nodes entries []) ∧
    length (Object_entries (flatSnippets this)) = count_snippets entries.
Proof.
  intros Hwf Hunique Hfree Hproto%bool_decide_eq_true.
  pose proof (snippet_nodes_path_strings_NoDup entries Hunique Hfree) as Hnd.
  assert (Hperm : flattenSnippets entries [] []
                  ≡ₚ index_pair <$> snippet_nodes entries []).
  { by apply (proj2 flattenSnippets_perm entries [] []). }
  eexists. split; [reflexivity|]. simpl. unfold Object_entries.
  split_and!; [done|done|].
  by rewrite Hperm, length_fmap, (proj2 snippet_nodes_length).
Qed.

Lemma flat_index_one_entry_per_snippet_witness :
  ∃ this,
    constructor hello_document = Returned this ∧
    Object_entries (flatSnippets this)
      ≡ₚ index_pair <$>
           snippet_nodes
             [("A", folder_node [("Hello", snippet_node "Hello" "x")]);
              ("B", folder_node
                      [("C", folder_node
                               [("Hello World",
                                 snippet_node "Hello World" "y")])])] [] ∧
    NoDup (path_string <$>
           snippet_nodes
             [("A", folder_node [("Hello", snippet_node "Hello" "x")]);
              ("B", folder_node
                      [("C", folder_node
                               [("Hello World",
                                 snippet_node "Hello World" "y")])])] []) ∧
    length (Object_entries (flatSnippets this))
      = count_snippets
          [("A", folder_node [("Hello", snippet_node "Hello" "x")]);
           ("B", folder_node
                   [("C", folder_node
                            [("Hello World",
                              snippet_node "Hello World" "y")])])].
Proof.
  apply (flat_index_one_entry_per_snippet
           [("A", folder_node [("Hello", snippet_node "Hello" "x")]);
            ("B", folder_node
                    [("C", folder_node
                             [("Hello World",
                               snippet_node "Hello World" "y")])])]);
    reflexivity.
Defined.

(** ** Malformed nodes *)

Lemma prune_node_unfold type name text children :
  prune_node (Node.Build type name text children) =
  if decide (type = Some "snippet")
  then Some (Node.Build type name text children)
  else if decide (type = Some "folder") then
    match children with
    | Some entries => Some (Node.Build type name text (Some (prune entries)))
    | None => None
    end
  else None.
Proof.
  simpl. repeat case_decide; try done.
  all: destruct children as [entries|]; [|done]; do 3 f_equal.
  all: induction entries as [|[k v] rest IH]; [done|]; simpl; by rewrite IH.
Qed.

(** The indexer does not see the pruned nodes. *)
Lemma flattenSnippets_prune :
  (∀ value key path result,
     flatten_entry key value path result =
     match prune_node value with
     | Some value' => flatten_entry key value' path result
     | None => result
     end) ∧
  (∀ entries path result,
     flattenSnippets (prune entries) path result
     = flattenSnippets entries path result).
Proof.
  apply document_ind.
  - intros type name text key path result.
    rewrite prune_node_unfold, flatten_entry_unfold.
    repeat case_decide; try done. rewrite flatten_entry_unfold.
    by rewrite decide_True.
  - intros type name text entries IH key path result.
    rewrite prune_node_unfold, flatten_entry_unfold.
    repeat case_decide; rewrite ?flatten_entry_unfold; try done.
    + by rewrite decide_True.
    + rewrite decide_False, decide_True by done. by rewrite IH.
  - done.
  - intros key value rest IHv IHrest path result. simpl.
    rewrite (IHv key path result).
    destruct (prune_node value); simpl; by rewrite IHrest.
Qed.

(** C4 as stated fails: the build returns an index without the
    malformed nodes instead of failing. *)
Lemma malformed_document_is_indexed :
  constructor malformed_document = Returned malformed_library ∧
  ∀ e, constructor malformed_document ≠ Threw e.
Proof. split; [reflexivity|]. intros e. vm_compute. discriminate. Qed.

(** C4, amended: a document with malformed nodes is indexed without an
    error.  A node without a recognised [type] and a folder without
    [children] are passed over, so that the index is that of the
    document without them; a snippet without [text] is indexed with an
    undefined [text]. *)
Theorem indexer_skips_malformed entries :
  constructor {| snippets := Some entries |}
    = Returned {| data := {| snippets := Some entries |};
                  flatSnippets := flattenSnippets (prune entries) [] [] |} ∧
  (∀ key value path result,
     missing_type value ∨ folder_without_children value →
     flatten_entry key value path result = result) ∧
  (∀ key value path result,
     snippet_without_text value →
     flatten_entry key value path result
       = obj_set (join (path ++ [key]))
           (snippet_entry value path (path ++ [key])) result ∧
     Entry.text (snippet_entry value path (path ++ [key])) = None).
Proof.
  split_and!.
  - unfold constructor. simpl. by rewrite (proj2 flattenSnippets_prune).
  - intros key [type name text children] path result Hbad.
    rewrite flatten_entry_unfold.
    destruct Hbad as [[Hs Hf]|[Hf Hc]]; simpl in Hs, Hf || simpl in Hf, Hc.
    + by rewrite !decide_False.
    + subst. by rewrite decide_False, decide_True.
  - intros key [type name text children] path result [Htype Htext].
    simpl in Htype, Htext. rewrite flatten_entry_unfold, decide_True by done.
    by subst.
Qed.

(** ** The index as a sequence of assignments *)

Lemma visited_of_unfold key type name text children path :
  visited_of key (Node.Build type name text children) path =
  if decide (type = Some "snippet")
  then [(path, key, Node.Build type name text children)]
  else if decide (type = Some "folder") then
    match children with
    | Some entries => visited entries (path ++ [key])
    | None => []
    end
  else [].
Proof.
  simpl. repeat case_decide; try done.
  all: destruct children as [entries|]; try done.
  all: induction entries as [|[k v] rest IH]; [done|]; simpl; by rewrite IH.
Qed.

Lemma assign_all_app l1 l2 result :
  assign_all (l1 ++ l2) result = assign_all l2 (assign_all l1 result).
Proof. apply fold_left_app. Qed.

(** The indexer assigns the visited snippets in order, and does nothing
    else. *)
Lemma flattenSnippets_assign_all :
  (∀ value key path result,
     flatten_entry key value path result
     = assign_all (visited_of key value path) result) ∧
  (∀ entries path result,
     flattenSnippets entries path result
     = assign_all (visited entries path) result).
Proof.
  apply document_ind.
  - intros type name text key path result.
    rewrite flatten_entry_unfold, visited_of_unfold. by repeat case_decide.
  - intros type name text entries IH key path result.
    rewrite flatten_entry_unfold, visited_of_unfold.
    repeat case_decide; try done. all: apply IH.
  - done.
  - intros key value rest IHv IHrest path result. simpl.
    by rewrite assign_all_app, IHv, IHrest.
Qed.

Section ObjectLookup.
Context {V : Type}.
Implicit Types (o : obj V) (k : string) (v : V).

Lemma obj_get_None k o : obj_get k o = None ↔ k ∉ o.*1.
Proof.
  induction o as [|[k' v'] o IH]; csimpl.
  - split; [intros _ ?%elem_of_nil|]; done.
  - rewrite not_elem_of_cons. case_decide as Hk.
    + split; [done|]. intros [Hne _]. congruence.
    + rewrite IH. split; [intros ?; split; [congruence|done]|by intros [_ ?]].
Qed.

Lemma obj_get_update_eq k v o : k ∈ o.*1 → obj_get k (obj_update k v o) = Some v.
Proof.
  induction o as [|[k' v'] o IH]; csimpl; [by intros ?%elem_of_nil|].
  intros Hin. case_decide as Hk; simpl.
  - by rewrite decide_True.
  - rewrite decide_False by done. apply IH.
    by apply elem_of_cons in Hin as [->|].
Qed.

Lemma obj_get_update_ne k k' v o :
  k ≠ k' → obj_get k' (obj_update k v o) = obj_get k' o.
Proof.
  intros Hne. induction o as [|[k0 v0] o IH]; simpl; [done|].
  case_decide as Hk; simpl.
  - subst. by rewrite !decide_False.
  - by rewrite IH.
Qed.

Lemma obj_get_insert_index_eq n k v o :
  obj_get k (obj_insert_index n k v o) = Some v ∨ k ∈ o.*1.
Proof.
  induction o as [|[k' v'] o IH]; csimpl.
  - left. by rewrite decide_True.
  - destruct (decide (k' = k)) as [->|Hne]; [right; left|].
    destruct (array_index k') as [n'|]; [destruct (n' <? n)%N|]; simpl;
      rewrite ?decide_True by done; auto.
    rewrite decide_False by done. destruct IH; [by left|right; by right].
Qed.

Lemma obj_get_insert_index_ne n k k' v o :
  k ≠ k' → obj_get k' (obj_insert_index n k v o) = obj_get k' o.
Proof.
  intros Hne. induction o as [|[k0 v0] o IH]; simpl.
  - by rewrite decide_False.
  - destruct (array_index k0) as [n'|]; [destruct (n' <? n)%N|]; simpl;
      rewrite ?IH, ?(decide_False (P := k = k')) by done; done.
Qed.

Lemma obj_get_app_ne k k' v o :
  k ≠ k' → obj_get k' (o ++ [(k, v)]) = obj_get k' o.
Proof.
  intros Hne. induction o as [|[k0 v0] o IH]; simpl.
  - by rewrite decide_False.
  - by rewrite IH.
Qed.

Lemma obj_get_app_eq k v o : k ∉ o.*1 → obj_get k (o ++ [(k, v)]) = Some v.
Proof.
  induction o as [|[k0 v0] o IH]; csimpl.
  - intros _. by rewrite decide_True.
  - intros [Hne Hnin]%not_elem_of_cons. rewrite decide_False by done. auto.
Qed.

(** Reading back what was assigned. *)
Lemma obj_get_set_eq k v o : k ≠ "__proto__" → obj_get k (obj_set k v o) = Some v.
Proof.
  intros Hk. unfold obj_set. rewrite decide_False by done.
  destruct (obj_has k o) eqn:Hhas.
  - apply obj_get_update_eq. by apply obj_has_true.
  - apply obj_has_false in Hhas. destruct (array_index k).
    + by destruct (obj_get_insert_index_eq n k v o).
    + by apply obj_get_app_eq.
Qed.

(** An assignment leaves the other properties alone. *)
Lemma obj_get_set_ne k k' v o : k ≠ k' → obj_get k' (obj_set k v o) = obj_get k' o.
Proof.
  intros Hne. unfold obj_set. case_decide; [done|].
  destruct (obj_has k o); [by apply obj_get_update_ne|].
  destruct (array_index k);
    [by apply obj_get_insert_index_ne | by apply obj_get_app_ne].
Qed.

End ObjectLookup.

Lemma find_last_app {A} (f : A → bool) l1 l2 :
  find_last f (l1 ++ l2) =
  match find_last f l2 with Some y => Some y | None => find_last f l1 end.
Proof.
  induction l1 as [|x l1 IH]; simpl; [by destruct (find_last f l2)|].
  rewrite IH. by destruct (find_last f l2).
Qed.

(** After a run of assignments a key holds what was assigned to it
    last. *)
Lemma obj_get_assign_all p l : ∀ result,
  p ≠ "__proto__" →
  obj_get p (assign_all l result) =
  match find_last (at_path p) l with
  | Some s => Some (index_pair s).2
  | None => obj_get p result
  end.
Proof.
  induction l as [|s l IH] using rev_ind; intros result Hp; [done|].
  unfold assign_all in *. rewrite fold_left_app, find_last_app. simpl.
  unfold at_path at 1. rewrite index_pair_key. case_bool_decide as Hs.
  - by rewrite Hs, obj_get_set_eq.
  - rewrite obj_get_set_ne by done. by apply IH.
Qed.

(** ** Lookups in the constructed index *)

(** X1: in a constructed library the exact lookup returns the entry
    that the index enumerates under the path string, when there is
    one.  When there is none it returns the inherited value, not null,
    for the name of a property of [Object.prototype] such as
    ["toString"]; for any other path string it returns null, provided
    no snippet was stored under ["__proto__"]. *)
Theorem getSnippet_value_spec jsonData this p :
  constructor jsonData = Returned this →
  (∀ e, (p, e) ∈ Object_entries (flatSnippets this) →
        getSnippet_value this p = EntryValue e) ∧
  (p ∉ (Object_entries (flatSnippets this)).*1 →
   (inherited p = true → getSnippet_value this p ≠ NullValue) ∧
   (inherited p = false → index_prototype this = None →
    getSnippet_value this p = NullValue)).
Proof.
  intros [Hnd _]%constructor_keyed_by_path. unfold getSnippet_value, getSnippet.
  unfold Object_entries in *. split.
  - intros e He. by rewrite (obj_get_elem _ _ _ Hnd He).
  - intros Hp%obj_get_None. rewrite Hp. split.
    + intros Hinh. case_decide as Hproto; [by destruct (index_prototype this)|].
      destruct (index_prototype this) as [entry|]; simpl; [|by rewrite Hinh].
      unfold entry_member.
      repeat (case_decide; [subst p; vm_compute in Hinh; discriminate|]).
      by rewrite Hinh.
    + intros Hinh ->. case_decide as Hproto; [rewrite Hproto in Hinh; vm_compute in Hinh; discriminate|].
      simpl. by rewrite Hinh.
Qed.

Lemma getSnippet_value_spec_witness :
  (∀ e, ("toString", e) ∈ Object_entries (flatSnippets hello_library) →
        getSnippet_value hello_library "toString" = EntryValue e) ∧
  ("toString" ∉ (Object_entries (flatSnippets hello_library)).*1 →
   (inherited "toString" = true →
    getSnippet_value hello_library "toString" ≠ NullValue) ∧
   (inherited "toString" = false → index_prototype hello_library = None →
    getSnippet_value hello_library "toString" = NullValue)).
Proof.
  apply (getSnippet_value_spec hello_document hello_library). reflexivity.
Defined.

(** A snippet stored under ["__proto__"] is no own property of the
    index, yet the lookup finds its entry as the prototype, and reads
    the members of that entry as if they were paths. *)
Lemma getSnippet_value_through_prototype :
  ∃ this,
    constructor proto_document = Returned this ∧
    getSnippet this "__proto__" = None ∧
    getSnippet_value this "__proto__"
      = EntryValue {| Entry.name := Some "P"; Entry.text := Some "p";
                      Entry.path := ["__proto__"];
                      Entry.category := "Root";
                      Entry.subcategory := None |} ∧
    getSnippet_value this "name" = StringValue "P" ∧
    getSnippet_value this "subcategory" = NullValue ∧
    getSnippet_value this "A/Hello" = EntryValue hello_entry.
Proof. eexists. split; [reflexivity|]. repeat split; reflexivity. Qed.

Lemma getSnippet_last_visited_lemma entries this p :
  constructor {| snippets := Some entries |} = Returned this →
  p ≠ "__proto__" →
  getSnippet this p =
  (λ s, (index_pair s).2) <$> find_last (at_path p) (visited entries []).
Proof.
  intros [= <-] Hp. unfold getSnippet. simpl.
  rewrite (proj2 flattenSnippets_assign_all), obj_get_assign_all by done.
  by destruct (find_last _ _).
Qed.

(** X2: whatever the document, the lookup of a path string other than
    ["__proto__"] finds the entry of the snippet visited last under
    that path string, and no own entry when no visited snippet has
    it: a later snippet shadows an earlier one. *)
Theorem getSnippet_last_visited entries this p :
  constructor {| snippets := Some entries |} = Returned this →
  p ≠ "__proto__" →
  getSnippet this p =
  (λ s, (index_pair s).2) <$> find_last (at_path p) (visited entries []).
Proof. apply getSnippet_last_visited_lemma. Qed.

Lemma getSnippet_last_visited_witness :
  getSnippet slash_library "A/B" =
  (λ s, (index_pair s).2) <$> find_last (at_path "A/B") (visited shadow_entries []).
Proof.
  apply (getSnippet_last_visited shadow_entries slash_library "A/B");
    [reflexivity | discriminate].
Defined.

(** ** Iteration order of the index *)

Lemma assign_all_ordinary l : ∀ result,
  NoDup (result.*1 ++ (path_string <$> l)) →
  forallb ordinary_path l = true →
  assign_all l result = result ++ (index_pair <$> l).
Proof.
  induction l as [|s l IH]; intros result Hnd Hord.
  - by rewrite app_nil_r.
  - simpl in Hord. apply andb_true_iff in Hord as [Hs Hl].
    unfold ordinary_path in Hs.
    apply andb_true_iff in Hs as [Hproto%negb_true_iff%bool_decide_eq_false
                                    Hidx%negb_true_iff%bool_decide_eq_false].
    rewrite fmap_cons in Hnd.
    assert (Hset : obj_set (index_pair s).1 (index_pair s).2 result
                   = result ++ [index_pair s]).
    { unfold obj_set. rewrite index_pair_key, decide_False by done.
      assert (obj_has (path_string s) result = false) as ->.
      { apply obj_has_false. apply NoDup_app in Hnd as (_ & Hdisj & _).
        intros Hin. apply (Hdisj _ Hin). by left. }
      destruct (array_index (path_string s)) eqn:Harr.
      - destruct Hidx. by eexists.
      - rewrite <-index_pair_key. by destruct (index_pair s). }
    unfold assign_all in *. simpl. rewrite Hset, IH; [|by rewrite fmap_app;
      csimpl; rewrite index_pair_key, <-app_assoc|done].
    by rewrite <-app_assoc.
Qed.

(** X3: when the visited snippets have distinct path strings, none of
    them ["__proto__"] or an array index, the index enumerates their
    entries in the depth-first order of the document. *)
Theorem flat_index_document_order entries this :
  constructor {| snippets := Some entries |} = Returned this →
  NoDup (path_string <$> visited entries []) →
  forallb ordinary_path (visited entries []) = true →
  Object_entries (flatSnippets this) = index_pair <$> visited entries [].
Proof.
  intros [= <-] Hnd Hord. simpl. unfold Object_entries.
  rewrite (proj2 flattenSnippets_assign_all).
  by rewrite assign_all_ordinary.
Qed.

Lemma flat_index_document_order_witness :
  Object_entries (flatSnippets hello_library)
  = index_pair <$> visited hello_entries [].
Proof.
  apply (flat_index_document_order hello_entries hello_library);
    [reflexivity | by apply (bool_decide_unpack _) | reflexivity].
Defined.

(** ** Menu structure *)

Lemma menu_snippets_of_folder label path children :
  menu_snippets_of (MenuFolder label path children) = menu_snippets children.
Proof.
  simpl. induction children as [|i rest IH]; [done|]. simpl. by rewrite IH.
Qed.

Lemma menu_snippets_app m1 m2 :
  menu_snippets (m1 ++ m2) = menu_snippets m1 ++ menu_snippets m2.
Proof.
  induction m1 as [|i m1 IH]; [done|]. simpl. by rewrite IH, app_assoc.
Qed.

Lemma folders_have_children_node_unfold type name text children :
  folders_have_children_node (Node.Build type name text children) =
  if decide (type = Some "folder") then
    match children with
    | Some entries => folders_have_children entries
    | None => false
    end
  else true.
Proof.
  simpl. case_decide; [|done]. destruct children as [entries|]; try done.
  all: induction entries as [|[k v] rest IH]; [done|]; simpl; by rewrite IH.
Qed.

(** With stack enough, the menu builder lists the snippets that the
    indexer visits, in the same order. *)
Lemma menu_loop_returns this :
  (∀ value key path,
     folders_have_children_node value = true →
     ∃ items,
       menu_snippets items = snippet_item <$> visited_of key value path ∧
       ∃ bound, ∀ depth menu, bound ≤ depth →
         menu_push (generateMenuStructure depth this) key value path menu
         = Returned (menu ++ items)) ∧
  (∀ entries path,
     folders_have_children entries = true →
     ∃ items,
       menu_snippets items = snippet_item <$> visited entries path ∧
       ∃ bound, ∀ depth menu, bound ≤ depth →
         menu_loop (generateMenuStructure depth this) entries path menu
         = Returned (menu ++ items)).
Proof.
  apply document_ind.
  - intros type name text key path.
    rewrite folders_have_children_node_unfold, visited_of_unfold.
    unfold menu_push. simpl. repeat case_decide; simplify_eq; try done; intros _.
    + exists [MenuSnippet name (path ++ [key]) text (category_of path)].
      split; [done|]. by exists 0.
    + exists []. split; [done|]. exists 0. intros. by rewrite app_nil_r.
  - intros type name text entries IH key path.
    rewrite folders_have_children_node_unfold, visited_of_unfold.
    unfold menu_push. simpl. repeat case_decide; simplify_eq; try done.
    + intros Hok. destruct (IH (path ++ [key]) Hok) as (items & Hitems & bound & Hb).
      exists [MenuFolder key (path ++ [key]) items]. split.
      { cbn [menu_snippets]. by rewrite menu_snippets_of_folder, app_nil_r. }
      exists (S bound). intros [|depth] menu Hle; [lia|]. simpl.
      rewrite Hb by lia. done.
    + intros _. exists [MenuSnippet name (path ++ [key]) text (category_of path)].
      split; [done|]. by exists 0.
    + intros _. exists []. split; [done|]. exists 0. intros. by rewrite app_nil_r.
  - intros path _. exists []. split; [done|]. exists 0. intros. by rewrite app_nil_r.
  - intros key value rest IHv IHrest path. simpl.
    intros [Hv Hrest]%andb_true_iff.
    destruct (IHv key path Hv) as (i1 & H1 & b1 & Hb1).
    destruct (IHrest path Hrest) as (i2 & H2 & b2 & Hb2).
    exists (i1 ++ i2). split; [by rewrite menu_snippets_app, fmap_app, H1, H2|].
    exists (b1 `max` b2). intros depth menu Hle.
    rewrite Hb1 by lia. simpl. rewrite Hb2 by lia. by rewrite app_assoc.
Qed.

(** Once the root has a reachable folder without children, a call that
    restarts from the root throws whatever stack it has. *)
Lemma menu_loop_throws this :
  (∀ value n key path menu,
     (∀ m p, m ≤ n → threw (generateMenuStructure m this None p)) →
     folders_have_children_node value = false →
     threw (menu_push (generateMenuStructure n this) key value path menu)) ∧
  (∀ entries n path menu,
     (∀ m p, m ≤ n → threw (generateMenuStructure m this None p)) →
     folders_have_children entries = false →
     threw (menu_loop (generateMenuStructure n this) entries path menu)).
Proof.
  apply document_ind.
  - intros type name text n key path menu Hrestart.
    rewrite folders_have_children_node_unfold. unfold menu_push. simpl.
    case_decide; [|done]. intros _.
    destruct (Hrestart n (path ++ [key])) as [e ->]; [done|]. by exists e.
  - intros type name text entries IH n key path menu Hrestart.
    rewrite folders_have_children_node_unfold. unfold menu_push. simpl.
    case_decide; [|done]. intros Hbad.
    destruct n as [|n]; [by eexists|]. simpl.
    destruct (IH n (path ++ [key]) [] ) as [e ->]; [|done|by exists e].
    intros m p Hm. apply Hrestart. lia.
  - done.
  - intros key value rest IHv IHrest n path menu Hrestart. simpl.
    intros Hbad. destruct (menu_push _ key value path menu) as [menu'|e] eqn:Hpush.
    + simpl. apply IHrest; [done|].
      destruct (folders_have_children_node value) eqn:Hv; [done|].
      destruct (IHv n key path menu Hrestart eq_refl) as [e He]. congruence.
    + by exists e.
Qed.

(** When the library has a document, the only error of the menu
    builder is the exhausted stack. *)
Lemma generateMenuStructure_only_RangeError this root :
  snippets (data this) = Some root →
  ∀ depth obj path e,
    generateMenuStructure depth this obj path = Threw e →
    e = RangeError_stack.
Proof.
  intros Hroot. induction depth as [|depth IH]; intros obj path e; simpl.
  - by intros [= <-].
  - assert (∃ entries, match obj with
                       | Some entries => Some entries
                       | None => snippets (data this)
                       end = Some entries) as [entries ->].
    { destruct obj; rewrite ?Hroot; eauto. }
    generalize (@nil MenuItem).
    induction entries as [|[key value] rest IHrest]; intros menu; simpl; [done|].
    destruct (menu_push _ key value path menu) as [menu'|e'] eqn:Hpush; simpl.
    + apply IHrest.
    + intros [= <-]. unfold menu_push in Hpush.
      repeat case_decide; try done.
      destruct (generateMenuStructure depth this _ _) eqn:Hrec; [done|].
      injection Hpush as <-. by eapply IH.
Qed.

(** X4: when every reachable folder has children, [generateMenuStructure()]
    returns, given stack enough, one menu whose snippet items are, in
    order, the snippets that the indexer visits. *)
Theorem generateMenuStructure_lists_visited this entries :
  snippets (data this) = Some entries →
  folders_have_children entries = true →
  ∃ menu bound,
    menu_snippets menu = snippet_item <$> visited entries [] ∧
    ∀ depth, bound ≤ depth →
      generateMenuStructure depth this None [] = Returned menu.
Proof.
  intros Hroot Hok.
  destruct (proj2 (menu_loop_returns this) entries [] Hok)
    as (menu & Hmenu & bound & Hbound).
  exists menu, (S bound). split; [done|].
  intros [|depth] Hle; [lia|]. simpl. rewrite Hroot.
  by rewrite Hbound by lia.
Qed.

Lemma generateMenuStructure_lists_visited_witness :
  ∃ menu bound,
    menu_snippets menu = snippet_item <$> visited hello_entries [] ∧
    ∀ depth, bound ≤ depth →
      generateMenuStructure depth hello_library None [] = Returned menu.
Proof.
  apply (generateMenuStructure_lists_visited hello_library hello_entries);
    reflexivity.
Defined.

(** A root with a reachable folder without children makes every call
    that starts from the root overflow. *)
Lemma generateMenuStructure_restart this entries :
  snippets (data this) = Some entries →
  folders_have_children entries = false →
  ∀ depth path,
    generateMenuStructure depth this None path = Threw RangeError_stack.
Proof.
  intros Hroot Hbad.
  assert (Hthrew : ∀ depth path,
            threw (generateMenuStructure depth this None path)).
  { induction depth as [depth IH] using lt_wf_ind. intros path.
    destruct depth as [|depth]; [by eexists|]. simpl. rewrite Hroot.
    apply (proj2 (menu_loop_throws this)); [|done].
    intros m p Hm. apply IH. lia. }
  intros depth path. destruct (Hthrew depth path) as [e He].
  by rewrite He, (generateMenuStructure_only_RangeError _ _ Hroot _ _ _ _ He).
Qed.

(** X5: when some reachable folder has no children, the recursive call
    on it takes the default [obj] and starts again from the root, so
    [generateMenuStructure()] ends in a stack overflow whatever the
    stack, although the same document was indexed without error. *)
Theorem generateMenuStructure_overflows this entries :
  snippets (data this) = Some entries →
  folders_have_children entries = false →
  ∀ depth path,
    generateMenuStructure depth this None path = Threw RangeError_stack.
Proof. apply generateMenuStructure_restart. Qed.

Lemma generateMenuStructure_overflows_witness :
  constructor {| snippets := Some hollow_entries |} = Returned hollow_library ∧
  ∀ depth path,
    generateMenuStructure depth hollow_library None path
    = Threw RangeError_stack.
Proof.
  split; [reflexivity|].
  apply (generateMenuStructure_overflows hollow_library hollow_entries);
    reflexivity.
Defined.

Lemma find_last_unique (l : list placed) s :
  NoDup (path_string <$> l) → s ∈ l →
  find_last (at_path (path_string s)) l = Some s.
Proof.
  induction l as [|x l IH]; [by intros _ ?%elem_of_nil|].
  rewrite fmap_cons. intros [Hx Hnd]%NoDup_cons [->|Hin]%elem_of_cons; simpl.
  - destruct (find_last _ l) as [y|] eqn:Hy.
    + exfalso. apply Hx.
      assert (Hin : y ∈ l ∧ at_path (path_string x) y = true).
      { clear -Hy. induction l as [|z l IH]; [done|]. simpl in Hy.
        destruct (find_last _ l) eqn:Hl.
        - injection Hy as ->. destruct IH; [done|]. split; [by right|done].
        - destruct (at_path (path_string x) z) eqn:Hz; [|done].
          injection Hy as ->. split; [by left|done]. }
      destruct Hin as [Hin Hat%bool_decide_eq_true]. rewrite <-Hat.
      by apply list_elem_of_fmap_2.
    + unfold at_path. by rewrite bool_decide_eq_true_2.
  - by rewrite IH.
Qed.

(** Whatever stack it had, a menu that was returned lists the visited
    snippets. *)
Lemma menu_loop_sound this :
  (∀ value depth key path menu out,
     folders_have_children_node value = true →
     menu_push (generateMenuStructure depth this) key value path menu
       = Returned out →
     ∃ items, out = menu ++ items ∧
       menu_snippets items = snippet_item <$> visited_of key value path) ∧
  (∀ entries depth path menu out,
     folders_have_children entries = true →
     menu_loop (generateMenuStructure depth this) entries path menu
       = Returned out →
     ∃ items, out = menu ++ items ∧
       menu_snippets items = snippet_item <$> visited entries path).
Proof.
  apply document_ind.
  - intros type name text depth key path menu out.
    rewrite folders_have_children_node_unfold, visited_of_unfold.
    unfold menu_push. simpl. repeat case_decide; simplify_eq; try done;
      intros _ [= <-].
    + by eexists.
    + exists []. by rewrite app_nil_r.
  - intros type name text entries IH depth key path menu out.
    rewrite folders_have_children_node_unfold, visited_of_unfold.
    unfold menu_push. simpl. repeat case_decide; simplify_eq; try done.
    + intros Hok. destruct depth as [|depth]; [done|]. simpl.
      destruct (menu_loop _ entries (path ++ [key]) []) as [sub|] eqn:Hsub;
        [|done].
      intros [= <-]. destruct (IH _ _ _ _ Hok Hsub) as (items & -> & Hitems).
      eexists. split; [done|]. cbn [menu_snippets].
      by rewrite menu_snippets_of_folder, app_nil_r.
    + intros _ [= <-]. by eexists.
    + intros _ [= <-]. exists []. by rewrite app_nil_r.
  - intros depth path menu out _ [= <-]. exists []. by rewrite app_nil_r.
  - intros key value rest IHv IHrest depth path menu out. simpl.
    intros [Hv Hrest]%andb_true_iff.
    destruct (menu_push _ key value path menu) as [menu'|] eqn:Hpush; [|done].
    simpl. intros Hloop.
    destruct (IHv _ _ _ _ _ Hv Hpush) as (i1 & -> & H1).
    destruct (IHrest _ _ _ _ Hrest Hloop) as (i2 & -> & H2).
    exists (i1 ++ i2). split; [by rewrite app_assoc|].
    by rewrite menu_snippets_app, fmap_app, H1, H2.
Qed.

(** X6: when the visited snippets have distinct path strings, every
    snippet item of the menu leads back to its entry: the lookup of the
    join of its [path] returns the entry with the item's [label] as
    name, and its [text], [path] and [category]. *)
Theorem menu_snippet_lookup this entries menu depth i label p text category :
  constructor {| snippets := Some entries |} = Returned this →
  NoDup (path_string <$> visited entries []) →
  generateMenuStructure depth this None [] = Returned menu →
  menu_snippets menu !! i = Some (MenuSnippet label p text category) →
  join p ≠ "__proto__" →
  ∃ e, getSnippet this (join p) = Some e ∧
       Entry.name e = label ∧ Entry.text e = text ∧
       Entry.path e = p ∧ Entry.category e = category.
Proof.
  intros Hthis Hnd Hmenu Hi Hp.
  assert (Hroot : snippets (data this) = Some entries) by (by injection Hthis as <-).
  assert (Hitems : menu_snippets menu = snippet_item <$> visited entries []).
  { destruct (folders_have_children entries) eqn:Hok.
    - destruct depth as [|depth]; [done|]. simpl in Hmenu. rewrite Hroot in Hmenu.
      by destruct (proj2 (menu_loop_sound this) _ _ _ _ _ Hok Hmenu)
        as (items & -> & Hitems).
    - by rewrite (generateMenuStructure_restart _ entries) in Hmenu. }
  rewrite Hitems, list_lookup_fmap in Hi.
  destruct (visited entries [] !! i) as [[[anc key] value]|] eqn:Hs; [|done].
  injection Hi as <- <- <- <-.
  rewrite (getSnippet_last_visited_lemma entries this) by done.
  change (join (anc ++ [key])) with (path_string (anc, key, value)).
  rewrite find_last_unique by (done || by eapply list_elem_of_lookup_2).
  eexists. split; [reflexivity|]. done.
Qed.

Lemma menu_snippet_lookup_witness :
  ∃ e, getSnippet hello_library (join ["B"; "C"; "Hello World"]) = Some e ∧
       Entry.name e = Some "Hello World" ∧ Entry.text e = Some "y" ∧
       Entry.path e = ["B"; "C"; "Hello World"] ∧ Entry.category e = "B".
Proof.
  apply (menu_snippet_lookup hello_library hello_entries
           [MenuFolder "A" ["A"]
              [MenuSnippet (Some "Hello") ["A"; "Hello"] (Some "x") "A"];
            MenuFolder "B" ["B"]
              [MenuFolder "C" ["B"; "C"]
                 [MenuSnippet (Some "Hello World") ["B"; "C"; "Hello World"]
                    (Some "y") "B"]]] 4 1);
    [reflexivity | by apply (bool_decide_unpack _) | reflexivity | reflexivity
    | discriminate].
Defined.

(** ** Categories *)

Lemma getSnippetsByCategory_filter this category :
  getSnippetsByCategory this category =
  located <$> filter (in_category category) (Object_entries (flatSnippets this)).
Proof.
  unfold getSnippetsByCategory.
  generalize (Object_entries (flatSnippets this)) as entries.
  enough (∀ entries results,
    (fix loop (entries : list (string * IndexEntry)) (results : list Located) :=
       match entries with
       | [] => results
       | (path, snippet) :: rest =>
           loop rest
             (if decide (toLowerCase (Entry.category snippet)
                         = toLowerCase category)
              then results ++ [{| snippet := snippet; fullPath := path |}]
              else results)
       end) entries results
    = results ++ (located <$> filter (in_category category) entries))
    as Hloop by (intros; by rewrite Hloop).
  induction entries as [|[path entry] rest IH]; intros results.
  - by rewrite app_nil_r.
  - rewrite IH, filter_cons. unfold in_category at 2. simpl.
    repeat case_decide; try done. by rewrite <-app_assoc.
Qed.

Lemma getSnippetsByCategory_elem this c r :
  r ∈ getSnippetsByCategory this c ↔
  (fullPath r, snippet r) ∈ Object_entries (flatSnippets this) ∧
  toLowerCase (Entry.category (snippet r)) = toLowerCase c.
Proof.
  destruct r as [e p]. rewrite getSnippetsByCategory_filter, list_elem_of_fmap.
  simpl. split.
  - by intros [[k v] [[= -> ->] [Hc Hin]%list_elem_of_filter]].
  - intros [Hin Hc]. exists (p, e). split; [done|].
    by apply list_elem_of_filter.
Qed.

(** X7: the category listing holds, in index order, exactly the entries
    whose category is the argument, letter case apart.  Every entry is
    in the listing of its own category, and two listings are the same
    when their categories differ in case only and share nothing
    otherwise. *)
Theorem getSnippetsByCategory_partition this :
  let entries := Object_entries (flatSnippets this) in
  (∀ c, getSnippetsByCategory this c `sublist_of` (located <$> entries)) ∧
  (∀ c r, r ∈ getSnippetsByCategory this c ↔
          (fullPath r, snippet r) ∈ entries ∧
          toLowerCase (Entry.category (snippet r)) = toLowerCase c) ∧
  (∀ k e, (k, e) ∈ entries →
          located (k, e) ∈ getSnippetsByCategory this (Entry.category e)) ∧
  (∀ c1 c2, toLowerCase c1 = toLowerCase c2 →
            getSnippetsByCategory this c1 = getSnippetsByCategory this c2) ∧
  (∀ c1 c2 r, toLowerCase c1 ≠ toLowerCase c2 →
              r ∈ getSnippetsByCategory this c1 →
              r ∉ getSnippetsByCategory this c2).
Proof.
  intros entries.
  pose proof (getSnippetsByCategory_elem this) as Hmem.
  split_and!; [|done|..].
  - intros c. rewrite getSnippetsByCategory_filter.
    apply fmap_sublist, sublist_filter.
  - intros k e Hin. by apply Hmem.
  - intros c1 c2 Hc. rewrite !getSnippetsByCategory_filter. f_equal.
    apply list_filter_iff. intros kv. unfold in_category. by rewrite Hc.
  - intros c1 c2 r Hne [_ H1]%Hmem [_ H2]%Hmem. congruence.
Qed.

Lemma Set_add_NoDup x set : NoDup set → NoDup (Set_add x set).
Proof.
  intros Hnd. unfold Set_add. case_decide; [done|].
  apply NoDup_app. split_and!; [done| |apply NoDup_singleton].
  by intros y Hy ->%list_elem_of_singleton.
Qed.

Lemma Set_add_elem x y set : y ∈ Set_add x set ↔ y = x ∨ y ∈ set.
Proof.
  unfold Set_add. case_decide.
  - split; [by right|]. by intros [->|].
  - rewrite elem_of_app, list_elem_of_singleton. tauto.
Qed.

Lemma Set_add_fold {A} (f : A → string) l : ∀ set,
  NoDup set →
  NoDup (fold_left (λ s x, Set_add (f x) s) l set) ∧
  ∀ y, y ∈ fold_left (λ s x, Set_add (f x) s) l set ↔ y ∈ set ∨ y ∈ f <$> l.
Proof.
  induction l as [|x l IH]; intros set Hnd; cbn [fold_left].
  - split; [done|]. intros y. rewrite fmap_nil, elem_of_nil. tauto.
  - destruct (IH (Set_add (f x) set) (Set_add_NoDup _ _ Hnd)) as [Hnd' Hin].
    split; [done|]. intros y.
    rewrite Hin, Set_add_elem, fmap_cons, elem_of_cons. tauto.
Qed.

(** X8: [getCategories()] lists every category that some entry has,
    each once, and nothing else; each listed category has a non-empty
    category listing. *)
Theorem getCategories_distinct this :
  NoDup (getCategories this) ∧
  (∀ c, c ∈ getCategories this ↔
        ∃ k e, (k, e) ∈ Object_entries (flatSnippets this) ∧
               Entry.category e = c) ∧
  (∀ c, c ∈ getCategories this → getSnippetsByCategory this c ≠ []).
Proof.
  unfold getCategories, Object_values, Object_entries.
  destruct (Set_add_fold Entry.category (flatSnippets this).*2 []) as [Hnd Hin];
    [constructor|].
  assert (Hmem : ∀ c,
    c ∈ fold_left (λ s x, Set_add (Entry.category x) s) (flatSnippets this).*2 []
    ↔ ∃ k e, (k, e) ∈ flatSnippets this ∧ Entry.category e = c).
  { intros c. rewrite Hin, elem_of_nil, <-list_fmap_compose, list_elem_of_fmap.
    split.
    - intros [[]|[[k e] [-> Hke]]]. by exists k, e.
    - intros (k & e & Hke & <-). right. by exists (k, e). }
  split_and!; [done|done|].
  intros c (k & e & Hke & <-)%Hmem Hnil.
  assert (Hlisted : located (k, e) ∈ getSnippetsByCategory this (Entry.category e))
    by (by apply getSnippetsByCategory_elem).
  rewrite Hnil in Hlisted. by apply elem_of_nil in Hlisted.
Qed.

(** ** Random selection *)

Lemma getRandomSnippet_candidates random this category :
  ∃ candidates,
    (∀ kv, kv ∈ candidates ↔
           kv ∈ Object_entries (flatSnippets this) ∧ eligible category kv) ∧
    getRandomSnippet random this category =
    if decide (length candidates = 0%nat) then Returned None
    else match candidates !! random (length candidates) with
         | Some kv => Returned (Some (located kv))
         | None => Threw "TypeError: undefined is not iterable"
         end.
Proof.
  unfold getRandomSnippet, eligible.
  destruct category as [c|]; [destruct (decide (c = "")) as [->|Hc]|].
  - exists (Object_entries (flatSnippets this)). split; [simpl; tauto|].
    case_decide; [done|]. by destruct (_ !! _) as [[]|].
  - exists (filter (in_category c) (Object_entries (flatSnippets this))).
    split.
    + intros kv. rewrite list_elem_of_filter. simpl.
      rewrite bool_decide_eq_false_2 by done. simpl. tauto.
    + case_decide; [done|]. by destruct (_ !! _) as [[]|].
  - exists (Object_entries (flatSnippets this)). split; [simpl; tauto|].
    case_decide; [done|]. by destruct (_ !! _) as [[]|].
Qed.

(** X9: when the random index is in range, [getRandomSnippet] returns
    an entry of the index that is in the given category (any entry when
    no category or an empty one is given), and it returns null exactly
    when no entry is eligible. *)
Theorem getRandomSnippet_spec random this category :
  (∀ n, 0 < n → random n < n) →
  ∃ picked,
    getRandomSnippet random this category = Returned picked ∧
    (picked = None ↔
     ∀ kv, kv ∈ Object_entries (flatSnippets this) → ¬ eligible category kv) ∧
    (∀ r, picked = Some r →
          (fullPath r, snippet r) ∈ Object_entries (flatSnippets this) ∧
          eligible category (fullPath r, snippet r)).
Proof.
  intros Hrandom.
  destruct (getRandomSnippet_candidates random this category)
    as (candidates & Hmem & ->).
  case_decide as Hlen.
  - apply nil_length_inv in Hlen as ->. eexists. split_and!; [done| |done].
    split; [|done]. intros _ kv Hin Hok.
    by apply (elem_of_nil kv), Hmem.
  - destruct (lookup_lt_is_Some_2 candidates (random (length candidates)))
      as [kv Hkv]; [apply Hrandom; lia|].
    rewrite Hkv. eexists. split_and!; [done| |].
    + split; [done|]. intros Hnone.
      apply list_elem_of_lookup_2, Hmem in Hkv as [Hin Hok].
      by destruct (Hnone kv).
    + intros r [= <-]. destruct kv as [k e]. simpl.
      by apply Hmem, list_elem_of_lookup_2 with (random (length candidates)).
Qed.

Lemma getRandomSnippet_spec_witness :
  ∃ picked,
    getRandomSnippet (λ _, 0) hello_library (Some "b") = Returned picked ∧
    (picked = None ↔
     ∀ kv, kv ∈ Object_entries (flatSnippets hello_library) →
           ¬ eligible (Some "b") kv) ∧
    (∀ r, picked = Some r →
          (fullPath r, snippet r) ∈ Object_entries (flatSnippets hello_library) ∧
          eligible (Some "b") (fullPath r, snippet r)).
Proof. apply (getRandomSnippet_spec (λ _, 0)). intros n Hn. exact Hn. Defined.

(** ** Statistics *)

Section StatsTurn.
Implicit Types (cats : obj Stats.category).

Lemma stats_of_snoc_other c l e :
  Entry.category e ≠ c → stats_of c (l ++ [e]) = stats_of c l.
Proof.
  intros Hne. unfold stats_of. rewrite filter_app, filter_cons_False by done.
  by rewrite filter_nil, app_nil_r.
Qed.

Lemma stats_of_snoc l e :
  stats_of (Entry.category e) (l ++ [e]) =
  {| Stats.count := S (Stats.count (stats_of (Entry.category e) l));
     Stats.subcategories :=
       add_subcategory (Stats.subcategories (stats_of (Entry.category e) l)) e |}.
Proof.
  unfold stats_of. rewrite filter_app, filter_cons_True by done.
  rewrite filter_nil, length_app, fold_left_app. simpl. f_equal. lia.
Qed.

Lemma stats_of_absent c l :
  c ∉ Entry.category <$> l →
  stats_of c l = {| Stats.count := 0; Stats.subcategories := [] |}.
Proof.
  intros Hc. unfold stats_of.
  assert (filter (λ e, Entry.category e = c) l = []) as ->; [|done].
  induction l as [|e l IH]; [done|]. rewrite fmap_cons, not_elem_of_cons in Hc.
  destruct Hc as [Hne Hc]. rewrite filter_cons_False by done. auto.
Qed.

Lemma stats_record_snoc_other c l e :
  Entry.category e ≠ c → stats_record c (l ++ [e]) = stats_record c l.
Proof.
  intros Hne. unfold stats_record. rewrite stats_of_snoc_other by done.
  assert (bool_decide (c ∈ Entry.category <$> l ++ [e])
          = bool_decide (c ∈ Entry.category <$> l)) as ->; [|done].
  apply bool_decide_ext. rewrite fmap_snoc, elem_of_app, list_elem_of_singleton.
  split; [intros [?|?]; [done|congruence]|by left].
Qed.

(** Replacing the value of one property. *)
Lemma obj_update_get cats c x :
  NoDup cats.*1 → c ∈ cats.*1 →
  NoDup (obj_update c x cats).*1 ∧
  obj_get c (obj_update c x cats) = Some x ∧
  ∀ c', c' ≠ c → obj_get c' (obj_update c x cats) = obj_get c' cats.
Proof.
  intros Hnd Hc. rewrite obj_update_keys. split_and!; [done| |].
  - by apply obj_get_update_eq.
  - intros c' Hne. by apply obj_get_update_ne.
Qed.

Lemma obj_get_is_Some cats c x : obj_get c cats = Some x → c ∈ cats.*1.
Proof.
  intros Hget. destruct (decide (c ∈ cats.*1)) as [|Hnin]; [done|].
  apply obj_get_None in Hnin. congruence.
Qed.

(** One turn keeps the invariant, unless it is caught by the trap. *)
Lemma stats_turn_invariant l state e :
  stats_invariant l state →
  if stats_trap e then threw (stats_turn state e)
  else ∃ state', stats_turn state e = Returned state' ∧
                 stats_invariant (l ++ [e]) state'.
Proof.
  destruct state as [total cats]. intros (Htotal & Hnd & Hget). simpl in *.
  unfold stats_turn, stats_trap.
  destruct (inherited (Entry.category e)) eqn:Hinh.
  - (* the category reads as an inherited property *)
    assert (Hnone : obj_get (Entry.category e) cats = None).
    { rewrite Hget. unfold stats_record. by rewrite Hinh, andb_false_r. }
    assert (obj_has (Entry.category e) cats = false) as ->.
    { by apply obj_has_false, obj_get_None. }
    simpl. rewrite Hnone.
    assert (Hkeep : stats_invariant (l ++ [e]) (S total, cats)).
    { split_and!; simpl; [rewrite length_app; simpl; lia|done|].
      intros c. destruct (decide (Entry.category e = c)) as [<-|Hne].
      - rewrite Hnone. unfold stats_record. by rewrite Hinh, andb_false_r.
      - by rewrite stats_record_snoc_other. }
    destruct (Entry.subcategory e) as [sub|]; [|eauto].
    case_decide; simpl.
    + rewrite bool_decide_eq_true_2 by done. simpl. eauto.
    + rewrite bool_decide_eq_false_2 by done. simpl. rewrite ?Hnone. by eexists.
  - (* an own record is there or is made *)
    simpl. rewrite orb_false_r.
    assert (Hproto : Entry.category e ≠ "__proto__").
    { intros Heq. by rewrite Heq in Hinh. }
    set (c0 := Entry.category e) in *.
    set (cats1 := if obj_has c0 cats then cats
                  else obj_set c0 {| Stats.count := 0; Stats.subcategories := [] |}
                         cats).
    assert (H1 : NoDup cats1.*1 ∧ obj_get c0 cats1 = Some (stats_of c0 l) ∧
                 ∀ c, c ≠ c0 → obj_get c cats1 = obj_get c cats).
    { subst cats1. destruct (obj_has c0 cats) eqn:Hhas.
      - split_and!; [done| |done]. rewrite Hget. unfold stats_record.
        apply obj_has_true in Hhas.
        destruct (bool_decide (c0 ∈ Entry.category <$> l)) eqn:Hin;
          rewrite ?Hinh; [done|].
        exfalso. apply (obj_get_None c0 cats); [|done].
        rewrite Hget. unfold stats_record. by rewrite Hin.
      - split_and!; [by apply obj_set_NoDup| |].
        + rewrite obj_get_set_eq by done. f_equal. symmetry.
          apply stats_of_absent. intros Hin. apply obj_has_false in Hhas.
          apply Hhas, (obj_get_is_Some _ _ (stats_of c0 l)).
          rewrite Hget. unfold stats_record.
          by rewrite bool_decide_eq_true_2, Hinh.
        + intros c Hne. by apply obj_get_set_ne. }
    clearbody cats1. destruct H1 as (Hnd1 & Hget1 & Hother1).
    rewrite Hget1.
    set (v2 := {| Stats.count := S (Stats.count (stats_of c0 l));
                  Stats.subcategories := Stats.subcategories (stats_of c0 l) |}).
    destruct (obj_update_get cats1 c0 v2 Hnd1 (obj_get_is_Some _ _ _ Hget1))
      as (Hnd2 & Hget2 & Hother2).
    set (cats2 := obj_update c0 v2 cats1) in *. clearbody cats2.
    assert (Hdone : ∀ cats3,
      NoDup cats3.*1 →
      obj_get c0 cats3 = Some (stats_of c0 (l ++ [e])) →
      (∀ c, c ≠ c0 → obj_get c cats3 = obj_get c cats2) →
      stats_invariant (l ++ [e]) (S total, cats3)).
    { intros cats3 Hnd3 Hget3 Hother3.
      split_and!; simpl; [rewrite length_app; simpl; lia|done|].
      intros c. destruct (decide (c = c0)) as [->|Hne].
      - rewrite Hget3. unfold stats_record.
        rewrite bool_decide_eq_true_2, Hinh; [done|].
        rewrite fmap_snoc, elem_of_app. right. by left.
      - rewrite Hother3, Hother2, Hother1, Hget by done.
        by rewrite stats_record_snoc_other. }
    rewrite Hget2.
    assert (Hsnoc := stats_of_snoc l e). fold c0 in Hsnoc.
    unfold add_subcategory in Hsnoc.
    destruct (Entry.subcategory e) as [sub|].
    + case_decide.
      * eexists. split; [done|]. apply Hdone; [done| |done].
        by rewrite Hget2, Hsnoc.
      * destruct (obj_update_get cats2 c0
                    {| Stats.count := Stats.count v2;
                       Stats.subcategories :=
                         Set_add sub (Stats.subcategories v2) |}
                    Hnd2 (obj_get_is_Some _ _ _ Hget2))
          as (Hnd3 & Hget3 & Hother3).
        eexists. split; [done|]. apply Hdone; [done| |done].
        by rewrite Hget3, Hsnoc.
    + eexists. split; [done|]. apply Hdone; [done| |done].
      by rewrite Hget2, Hsnoc.
Qed.

Lemma stats_loop_invariant rest : ∀ l state,
  stats_invariant l state →
  if existsb stats_trap rest then threw (stats_loop rest state)
  else ∃ state', stats_loop rest state = Returned state' ∧
                 stats_invariant (l ++ rest) state'.
Proof.
  induction rest as [|e rest IH]; intros l state Hinv; simpl.
  - rewrite app_nil_r. eauto.
  - pose proof (stats_turn_invariant l state e Hinv) as Hturn.
    destruct (stats_trap e); simpl.
    + destruct Hturn as [err ->]. by exists err.
    + destruct Hturn as (state' & -> & Hinv'). simpl.
      specialize (IH _ _ Hinv'). rewrite <-app_assoc in IH. apply IH.
Qed.

End StatsTurn.

Lemma stats_invariant_start : stats_invariant [] (0%nat, []).
Proof. split_and!; [done|constructor|done]. Qed.

Lemma existsb_stats_trap values :
  existsb stats_trap values = true ↔
  ∃ e, e ∈ values ∧ inherited (Entry.category e) = true ∧
       ∃ sub, Entry.subcategory e = Some sub ∧ sub ≠ "".
Proof.
  rewrite existsb_exists. split.
  - intros (e & Hin%list_elem_of_In & Htrap). exists e. split; [done|].
    unfold stats_trap in Htrap. apply andb_true_iff in Htrap as [Hinh Hsub].
    split; [done|]. destruct (Entry.subcategory e) as [sub|]; [|done].
    exists sub. split; [done|].
    by apply negb_true_iff, bool_decide_eq_false in Hsub.
  - intros (e & Hin & Hinh & sub & Hsub & Hne). exists e.
    split; [by apply list_elem_of_In|]. unfold stats_trap.
    rewrite Hinh, Hsub. simpl. by rewrite bool_decide_eq_false_2.
Qed.

Lemma getStats_outcome this :
  if existsb stats_trap (Object_values (flatSnippets this))
  then threw (getStats this)
  else ∃ total cats,
         getStats this = Returned {| Stats.totalSnippets := total;
                                     Stats.categories := length cats.*1;
                                     Stats.categoriesDetail := cats |} ∧
         stats_invariant (Object_values (flatSnippets this)) (total, cats).
Proof.
  unfold getStats.
  pose proof (stats_loop_invariant (Object_values (flatSnippets this)) []
                (0%nat, []) stats_invariant_start) as Hloop.
  destruct (existsb stats_trap _).
  - destruct Hloop as [err ->]. by exists err.
  - destruct Hloop as ([total cats] & -> & Hinv). simpl. eauto.
Qed.

(** X10: [getStats()] fails exactly when some entry has a subcategory
    and a category named like a property inherited from
    [Object.prototype], such as a top-level folder called "toString"
    or "constructor"; the index of such a document is built without
    error. *)
Theorem getStats_fails_iff this :
  threw (getStats this) ↔
  ∃ k e, (k, e) ∈ Object_entries (flatSnippets this) ∧
         inherited (Entry.category e) = true ∧
         ∃ sub, Entry.subcategory e = Some sub ∧ sub ≠ "".
Proof.
  pose proof (getStats_outcome this) as Hout.
  assert (Hvalues : (∃ k e, (k, e) ∈ Object_entries (flatSnippets this) ∧
                       inherited (Entry.category e) = true ∧
                       ∃ sub, Entry.subcategory e = Some sub ∧ sub ≠ "")
                    ↔ existsb stats_trap (Object_values (flatSnippets this)) = true).
  { rewrite existsb_stats_trap. unfold Object_values, Object_entries. split.
    - intros (k & e & Hin & H). exists e. split; [|done].
      by apply (list_elem_of_fmap_2 snd) in Hin.
    - intros (e & Hin & H). apply list_elem_of_fmap in Hin as ([k e'] & -> & Hin).
      by exists k, e'. }
  rewrite Hvalues. destruct (existsb stats_trap _).
  - done.
  - destruct Hout as (total & cats & -> & _). split; [by intros [err ?]|done].
Qed.

Lemma getStats_trap_reachable :
  constructor {| snippets := Some toString_entries |} = Returned toString_library ∧
  getStats toString_library
  = Threw "TypeError: Cannot read properties of undefined (reading 'add')".
Proof. split; reflexivity. Qed.

Lemma add_subcategory_fold members : ∀ set,
  NoDup set →
  NoDup (fold_left add_subcategory members set) ∧
  ∀ sub, sub ∈ fold_left add_subcategory members set ↔
         sub ∈ set ∨ (sub ≠ "" ∧ ∃ e, e ∈ members ∧ Entry.subcategory e = Some sub).
Proof.
  induction members as [|e members IH]; intros set Hnd; cbn [fold_left].
  - split; [done|]. intros sub. split; [by left|].
    by intros [?|(_ & e & ?%elem_of_nil & _)].
  - assert (Hnd' : NoDup (add_subcategory set e)).
    { unfold add_subcategory. destruct (Entry.subcategory e); [|done].
      case_decide; [done|]. by apply Set_add_NoDup. }
    destruct (IH _ Hnd') as [Hres Hin]. split; [done|]. intros sub.
    rewrite Hin. unfold add_subcategory.
    destruct (Entry.subcategory e) as [s|] eqn:Hs.
    + case_decide as Hempty.
      * subst s. split.
        -- intros [?|(Hne & e' & Hin' & He')]; [by left|right].
           split; [done|]. exists e'. split; [by right|done].
        -- intros [?|(Hne & e' & [->|Hin']%elem_of_cons & He')]; [by left| |].
           ++ congruence.
           ++ right. eauto.
      * rewrite Set_add_elem. split.
        -- intros [[->|?]|(Hne & e' & Hin' & He')]; [right|by left|right].
           ++ split; [done|]. exists e. split; [by left|done].
           ++ split; [done|]. exists e'. split; [by right|done].
        -- intros [?|(Hne & e' & [->|Hin']%elem_of_cons & He')].
           ++ left. by right.
           ++ left. left. congruence.
           ++ right. eauto.
    + split.
      * intros [?|(Hne & e' & Hin' & He')]; [by left|right].
        split; [done|]. exists e'. split; [by right|done].
      * intros [?|(Hne & e' & [->|Hin']%elem_of_cons & He')]; [by left| |].
        -- congruence.
        -- right. eauto.
Qed.

Lemma getCategories_elem this c :
  c ∈ getCategories this ↔
  c ∈ Entry.category <$> Object_values (flatSnippets this).
Proof.
  unfold getCategories.
  destruct (Set_add_fold Entry.category (Object_values (flatSnippets this)) [])
    as [_ Hin]; [constructor|].
  rewrite Hin, elem_of_nil. tauto.
Qed.

Lemma getCategories_NoDup this : NoDup (getCategories this).
Proof.
  unfold getCategories.
  by destruct (Set_add_fold Entry.category (Object_values (flatSnippets this)) [])
    as [Hnd _]; [constructor|].
Qed.

(** X11: when [getStats()] returns, [totalSnippets] is the number of
    entries, [categories] is the number of distinct categories that are
    not named like an inherited property, and each such category has a
    record whose [count] is the number of entries with exactly that
    category and whose [subcategories] are their distinct non-empty
    subcategories.  The count is at most the length of the category
    listing, which ignores letter case. *)
Theorem getStats_counts this st :
  getStats this = Returned st →
  let values := Object_values (flatSnippets this) in
  Stats.totalSnippets st = length values ∧
  Stats.categories st
    = length (filter (λ c, inherited c = false) (getCategories this)) ∧
  ∀ c, c ∈ getCategories this → inherited c = false →
    ∃ record,
      obj_get c (Stats.categoriesDetail st) = Some record ∧
      Stats.count record = length (filter (λ e, Entry.category e = c) values) ∧
      0 < Stats.count record ≤ length (getSnippetsByCategory this c) ∧
      NoDup (Stats.subcategories record) ∧
      ∀ sub, sub ∈ Stats.subcategories record ↔
             sub ≠ "" ∧ ∃ e, e ∈ values ∧ Entry.category e = c ∧
                             Entry.subcategory e = Some sub.
Proof.
  intros Hst values. pose proof (getStats_outcome this) as Hout.
  destruct (existsb stats_trap _).
  { destruct Hout as [err Herr]. congruence. }
  destruct Hout as (total & cats & Heq & Htotal & Hnd & Hget).
  rewrite Heq in Hst. injection Hst as <-. simpl in *. fold values in Htotal, Hget.
  split_and!; [done| |].
  - apply Permutation_length, NoDup_Permutation;
      [done|apply NoDup_filter, getCategories_NoDup|].
    intros c. rewrite list_elem_of_filter, getCategories_elem. fold values.
    specialize (Hget c). unfold stats_record in Hget. split.
    + intros Hc. destruct (obj_get c cats) eqn:Hc'.
      * destruct (bool_decide_reflect (c ∈ Entry.category <$> values));
          [|done]. by destruct (inherited c).
      * by apply obj_get_None in Hc'.
    + intros [Hinh Hin]. apply (obj_get_is_Some _ _ (stats_of c values)).
      by rewrite Hget, bool_decide_eq_true_2, Hinh.
  - intros c Hc%getCategories_elem Hinh. fold values in Hc.
    exists (stats_of c values). split_and!.
    + rewrite Hget. unfold stats_record. by rewrite bool_decide_eq_true_2, Hinh.
    + done.
    + simpl. apply list_elem_of_fmap in Hc as (e & -> & He).
      assert (e ∈ filter (λ e', Entry.category e' = Entry.category e) values)
        as Hmem by (by apply list_elem_of_filter).
      destruct (filter _ values); [by apply elem_of_nil in Hmem|simpl; lia].
    + simpl. rewrite getSnippetsByCategory_filter, length_fmap.
      unfold values, Object_values, Object_entries.
      generalize (flatSnippets this). intros o.
      induction o as [|[k e] o IH]; [done|]. csimpl.
      rewrite !filter_cons. unfold in_category at 1. simpl.
      repeat case_decide; simpl; try lia. congruence.
    + simpl. by apply add_subcategory_fold; [constructor].
    + intros sub. simpl.
      destruct (add_subcategory_fold
                  (filter (λ e, Entry.category e = c) values) [])
        as [_ Hin]; [constructor|].
      rewrite Hin, elem_of_nil. split.
      * intros [[]|(Hne & e & [Hcat He]%list_elem_of_filter & Hsub)]. eauto.
      * intros (Hne & e & He & Hcat & Hsub). right. split; [done|].
        exists e. split; [by apply list_elem_of_filter|done].
Qed.

Lemma getStats_counts_witness :
  let values := Object_values (flatSnippets hello_library) in
  Stats.totalSnippets
    {| Stats.totalSnippets := 2; Stats.categories := 2;
       Stats.categoriesDetail :=
         [("A", {| Stats.count := 1; Stats.subcategories := [] |});
          ("B", {| Stats.count := 1; Stats.subcategories := ["C"] |})] |}
    = length values ∧
  Stats.categories
    {| Stats.totalSnippets := 2; Stats.categories := 2;
       Stats.categoriesDetail :=
         [("A", {| Stats.count := 1; Stats.subcategories := [] |});
          ("B", {| Stats.count := 1; Stats.subcategories := ["C"] |})] |}
    = length (filter (λ c, inherited c = false) (getCategories hello_library)) ∧
  ∀ c, c ∈ getCategories hello_library → inherited c = false →
    ∃ record,
      obj_get c (Stats.categoriesDetail
        {| Stats.totalSnippets := 2; Stats.categories := 2;
           Stats.categoriesDetail :=
             [("A", {| Stats.count := 1; Stats.subcategories := [] |});
              ("B", {| Stats.count := 1; Stats.subcategories := ["C"] |})] |})
        = Some record ∧
      Stats.count record = length (filter (λ e, Entry.category e = c) values) ∧
      0 < Stats.count record ≤ length (getSnippetsByCategory hello_library c) ∧
      NoDup (Stats.subcategories record) ∧
      ∀ sub, sub ∈ Stats.subcategories record ↔
             sub ≠ "" ∧ ∃ e, e ∈ values ∧ Entry.category e = c ∧
                             Entry.subcategory e = Some sub.
Proof. apply (getStats_counts hello_library). reflexivity. Defined.

(** ** More on the search *)

Section SearchLoopMore.
Variables (query : string) (options : Options.t).

Let lowerQuery := toLowerCase query.
Let searchInText := default false (Options.searchInText options).
Let category := Options.category options.
Let maxResults := default 20%Z (Options.maxResults options).

(** What a loop pushes are entries of the list it scans, in their
    order, and at most as many as the cap allows, or one. *)
Lemma search_loop_pushed entries : ∀ results out,
  search_loop lowerQuery searchInText category maxResults entries results
    = Returned out →
  ∃ pushed, out = results ++ pushed ∧
    pushed `sublist_of` (result_of query <$> entries) ∧
    length out ≤ (length results + 1) `max` Z.to_nat maxResults.
Proof.
  subst lowerQuery searchInText category maxResults.
  induction entries as [|[path entry] rest IH]; intros results out Hout.
  - injection Hout as <-. exists []. rewrite app_nil_r. split_and!; [done..|lia].
  - destruct (search_loop_returned _ _ _ _ _ _ _ Hout) as [[name Hname] Htext].
    rewrite (search_loop_step _ _ _ _ _ _ name) in Hout by done.
    cbn zeta in Hout. rewrite fmap_cons.
    set (here := if passes query options (path, entry)
                 then [result_of query (path, entry)] else []) in *.
    assert (Hhere : here `sublist_of` [result_of query (path, entry)] ∧
                    length here ≤ 1).
    { subst here. destruct (passes _ _ _); simpl; split; try lia; try done.
      apply sublist_nil_l. }
    destruct Hhere as [Hsub Hlen].
    destruct (Z.leb_spec (default 20%Z (Options.maxResults options))
                (Z.of_nat (length (results ++ here))))
      as [Hle|Hlt].
    + injection Hout as <-. exists here. split_and!; [done| |].
      * rewrite <-(app_nil_r here).
        apply (sublist_app _ [_]); [done|apply sublist_nil_l].
      * rewrite length_app. lia.
    + apply IH in Hout as (pushed & -> & Hpushed & Hbound).
      exists (here ++ pushed). rewrite app_assoc. split_and!; [done| |].
      * by apply (sublist_app _ [_]).
      * rewrite !length_app in *. lia.
Qed.

(** A loop returns when the strings it may read are there. *)
Lemma search_loop_total entries : ∀ results,
  names_defined entries = true →
  (searchInText = true → strings_defined entries = true) →
  ∃ out, search_loop lowerQuery searchInText category maxResults entries results
         = Returned out.
Proof.
  subst lowerQuery searchInText category maxResults.
  induction entries as [|[path entry] rest IH]; intros results Hnames Htexts.
  - by eexists.
  - simpl in Hnames. apply andb_true_iff in Hnames as [[name Hname]%bool_decide_eq_true Hnames].
    rewrite (search_loop_step _ _ _ _ _ _ name); [|done|].
    + cbn zeta. destruct (_ <=? _)%Z; [by eexists|].
      apply IH; [done|]. intros Hsit.
      by apply Htexts, strings_defined_cons in Hsit as [_ ?].
    + intros Hsit. apply Htexts, strings_defined_cons in Hsit
        as [(? & text & _ & ->) _]. by eexists.
Qed.

End SearchLoopMore.

Lemma searchSnippets_pushed this query options results :
  searchSnippets this query options = Returned results →
  ∃ pushed, results ≡ₚ pushed ∧
    pushed `sublist_of`
      (result_of query <$> Object_entries (flatSnippets this)) ∧
    length pushed ≤ 1 `max` Z.to_nat (default 20%Z (Options.maxResults options)) ∧
    Forall (λ r, passes query options (entry_of r) = true) pushed.
Proof.
  unfold searchSnippets. intros Hsearch.
  destruct (search_loop _ _ _ _ _ _) as [found|] eqn:Hloop; [|done].
  cbn [bind] in Hsearch. injection Hsearch as <-.
  pose proof Hloop as Hsound.
  apply search_loop_pushed in Hloop as (pushed & -> & Hsub & Hlen).
  apply search_loop_sound in Hsound as (pushed' & Heq & Hpass).
  simpl in Heq. subst pushed'.
  exists pushed. split_and!; [apply Array_sort_perm|done|done|].
  eapply Forall_impl; [exact Hpass|]. by intros r [? _].
Qed.

(** X12: every result of a search on a constructed library is an entry
    of the index, and the exact lookup of its [fullPath] returns the
    snippet that the result carries. *)
Theorem search_result_lookup jsonData this query options results i r :
  constructor jsonData = Returned this →
  searchSnippets this query options = Returned results →
  results !! i = Some r →
  (fullPath (hit r), snippet (hit r)) ∈ Object_entries (flatSnippets this) ∧
  getSnippet this (fullPath (hit r)) = Some (snippet (hit r)).
Proof.
  intros [Hnd _]%constructor_keyed_by_path Hsearch Hr.
  apply searchSnippets_pushed in Hsearch as (pushed & Hperm & Hsub & _).
  apply list_elem_of_lookup_2 in Hr. rewrite Hperm in Hr.
  apply (sublist_subseteq _ _ Hsub), list_elem_of_fmap in Hr
    as ([k e] & -> & Hin).
  simpl. split; [done|]. by apply obj_get_elem.
Qed.

Lemma search_result_lookup_witness :
  (fullPath (hit (scored ("A/Hello", hello_entry) 123)),
   snippet (hit (scored ("A/Hello", hello_entry) 123)))
    ∈ Object_entries (flatSnippets hello_library) ∧
  getSnippet hello_library (fullPath (hit (scored ("A/Hello", hello_entry) 123)))
    = Some (snippet (hit (scored ("A/Hello", hello_entry) 123))).
Proof.
  apply (search_result_lookup hello_document hello_library "Hello" Options.empty
           [scored ("A/Hello", hello_entry) 123;
            scored ("B/C/Hello World", hello_world_entry) 72] 0);
    reflexivity.
Defined.

(** X13: a search returns at most [maxResults] results (20 when absent),
    or one when [maxResults] is less than one, and never more than the
    index has entries. *)
Theorem search_result_count this query options results :
  searchSnippets this query options = Returned results →
  length results
    ≤ 1 `max` Z.to_nat (default 20%Z (Options.maxResults options)) ∧
  length results ≤ length (Object_entries (flatSnippets this)).
Proof.
  intros (pushed & Hperm & Hsub & Hlen & _)%searchSnippets_pushed.
  rewrite Hperm. split; [done|].
  apply sublist_length in Hsub. by rewrite length_fmap in Hsub.
Qed.

Lemma search_result_count_witness :
  length [scored ("B/C/Hello World", hello_world_entry) 72]
    ≤ 1 `max` Z.to_nat (default 20%Z (Options.maxResults (cap 1))) ∧
  length [scored ("B/C/Hello World", hello_world_entry) 72]
    ≤ length (Object_entries (flatSnippets hello_library_swapped)).
Proof.
  apply (search_result_count hello_library_swapped "Hello" (cap 1)).
  reflexivity.
Defined.

(** X14: with a non-empty [category] option every result of a search is
    in the category listing of that category. *)
Theorem search_within_category this query options c results i r :
  Options.category options = Some c → c ≠ "" →
  searchSnippets this query options = Returned results →
  results !! i = Some r →
  hit r ∈ getSnippetsByCategory this c.
Proof.
  intros Hc Hne Hsearch Hr.
  apply searchSnippets_pushed in Hsearch as (pushed & Hperm & Hsub & _ & Hpass).
  apply list_elem_of_lookup_2 in Hr. rewrite Hperm in Hr.
  rewrite Forall_forall in Hpass. specialize (Hpass _ Hr).
  apply (sublist_subseteq _ _ Hsub), list_elem_of_fmap in Hr
    as ([k e] & -> & Hin).
  apply getSnippetsByCategory_elem. simpl. split; [done|].
  unfold passes in Hpass. simpl in Hpass.
  apply andb_true_iff in Hpass as [_ Hcat]. rewrite Hc in Hcat. simpl in Hcat.
  rewrite decide_False in Hcat by done.
  by rewrite negb_involutive, bool_decide_eq_true in Hcat.
Qed.

Lemma search_within_category_witness :
  hit (scored ("B/C/Hello World", hello_world_entry) 72)
    ∈ getSnippetsByCategory hello_library "b".
Proof.
  apply (search_within_category hello_library "Hello" (within "b") "b"
           [scored ("B/C/Hello World", hello_world_entry) 72] 0);
    [reflexivity | discriminate | reflexivity | reflexivity].
Defined.

Lemma names_defined_of_strings entries :
  strings_defined entries = true → names_defined entries = true.
Proof.
  unfold strings_defined, names_defined. rewrite !forallb_forall.
  intros H kv Hin. by apply H, andb_true_iff in Hin as [? _].
Qed.

(** X15: a search that does not look into the texts returns as soon as
    every entry has a name, whether or not the texts are there; a search
    into the texts reads them and fails on one that is undefined. *)
Theorem search_without_text this query options :
  names_defined (Object_entries (flatSnippets this)) = true →
  Options.searchInText options ≠ Some true →
  ∃ results, searchSnippets this query options = Returned results.
Proof.
  intros Hnames Hsit. unfold searchSnippets.
  destruct (search_loop_total query options (Object_entries (flatSnippets this)) []
              Hnames) as [out ->]; [|by eexists].
  intros Htrue. destruct (Options.searchInText options) as [[]|]; done.
Qed.

Lemma search_without_text_witness :
  (∃ results, searchSnippets malformed_library "ok" Options.empty
              = Returned results) ∧
  searchSnippets malformed_library "ok" in_text = Threw TypeError_undefined.
Proof.
  split; [|reflexivity].
  apply (search_without_text malformed_library "ok" Options.empty);
    [reflexivity | discriminate].
Defined.

(** ** Folders and categories *)

Lemma assign_all_elem l : ∀ result k e,
  (k, e) ∈ assign_all l result →
  (k, e) ∈ result ∨ ∃ s, s ∈ l ∧ (k, e) = index_pair s.
Proof.
  induction l as [|s l IH]; intros result k e; [by left|].
  unfold assign_all in *. simpl. intros [Hin|(s' & Hs' & Heq)]%IH.
  - apply obj_set_elem in Hin as [Heq|Hin]; [right|by left].
    exists s. split; [by left|]. by destruct (index_pair s).
  - right. exists s'. split; [by right|done].
Qed.

(** The indexer visits snippet nodes of the document only. *)
Lemma visited_snippet_nodes :
  (∀ value key path s,
     s ∈ visited_of key value path → s ∈ snippets_of key value path) ∧
  (∀ entries path s,
     s ∈ visited entries path → s ∈ snippet_nodes entries path).
Proof.
  apply document_ind.
  - intros type name text key path s.
    rewrite visited_of_unfold, snippets_of_unfold.
    repeat case_decide; try done. all: by intros ?%elem_of_nil.
  - intros type name text entries IH key path s.
    rewrite visited_of_unfold, snippets_of_unfold.
    repeat case_decide; try done. all: try apply IH. all: by intros ?%elem_of_nil.
  - done.
  - intros key value rest IHv IHrest path s. simpl. rewrite !elem_of_app.
    intros [?|?]; [left; by apply IHv|right; by apply IHrest].
Qed.

(** Every entry of a constructed index stands for a snippet node of
    the document. *)
Lemma constructor_entry_origin entries this k e :
  constructor {| snippets := Some entries |} = Returned this →
  (k, e) ∈ Object_entries (flatSnippets this) →
  ∃ anc key value,
    (anc, key, value) ∈ snippet_nodes entries [] ∧
    k = join (anc ++ [key]) ∧ e = snippet_entry value anc (anc ++ [key]).
Proof.
  intros [= <-]. unfold Object_entries. simpl.
  rewrite (proj2 flattenSnippets_assign_all).
  intros [?%elem_of_nil|([[anc key] value] & Hs & Heq)]%assign_all_elem; [done|].
  exists anc, key, value. split; [by apply visited_snippet_nodes|].
  by injection Heq as -> ->.
Qed.

Lemma split_not_nil s : split s ≠ [].
Proof.
  destruct s as [|c s]; simpl; [done|].
  destruct (bool_decide (c = slash)); [done|]. by destruct (split s).
Qed.

Lemma join_cons a l : l ≠ [] → join (a :: l) = a +:+ String slash (join l).
Proof. by destruct l. Qed.

(** X16: in the index of a document whose keys hold no ["/"], the
    listing of a top-level folder, named without ["/"] and not empty,
    holds only entries whose category is that folder; and unless the
    folder is called "Root" it holds all of them. *)
Theorem folder_listing_is_category entries this folderPath :
  constructor {| snippets := Some entries |} = Returned this →
  keys_slash_free entries = true →
  slash_free folderPath = true → folderPath ≠ "" →
  (∀ r, r ∈ getSnippetsInFolder this folderPath →
        Entry.category (snippet r) = folderPath) ∧
  (folderPath ≠ "Root" →
   ∀ k e, (k, e) ∈ Object_entries (flatSnippets this) →
          Entry.category e = folderPath →
          located (k, e) ∈ getSnippetsInFolder this folderPath).
Proof.
  intros Hthis Hkeys Hfp Hne. split.
  - intros [e k]. rewrite getSnippetsInFolder_filter, list_elem_of_fmap.
    intros ([k' e'] & [= -> ->] & [Hpre Hin]%list_elem_of_filter). simpl.
    destruct (constructor_entry_origin _ _ _ _ Hthis Hin)
      as (anc & key & value & Hs & Hk & ->). simpl.
    destruct (proj2 snippet_nodes_prefix _ _ _ Hkeys Hs)
      as (k1 & tail & _ & Hpath & Hfree).
    unfold full_path in Hpath. simpl in Hpath.
    unfold under_folder in Hpre. simpl in Hpre.
    apply startsWith_app in Hpre as [rest Hrest].
    rewrite string_app_assoc in Hrest.
    assert (Hsplit : split k' = folderPath :: split rest).
    { rewrite Hrest. by apply (split_app_slash folderPath rest). }
    rewrite Hk, Hpath, split_join in Hsplit by done.
    injection Hsplit as -> Htail.
    destruct anc as [|a anc'].
    + simpl in Hpath. injection Hpath as _ <-.
      by destruct (split_not_nil rest).
    + injection Hpath as -> _. unfold category_of. simpl.
      by rewrite decide_False.
  - intros Hroot k e Hin Hcat.
    destruct (constructor_entry_origin _ _ _ _ Hthis Hin)
      as (anc & key & value & Hs & -> & ->). simpl in Hcat.
    rewrite getSnippetsInFolder_filter. apply list_elem_of_fmap.
    eexists. split; [done|]. apply list_elem_of_filter. split; [|done].
    unfold under_folder. simpl. apply startsWith_app.
    unfold category_of in Hcat. destruct anc as [|a anc']; [done|].
    simpl in Hcat. case_decide; [done|]. subst a.
    exists (join (anc' ++ [key])). rewrite string_app_assoc.
    change ((folderPath :: anc') ++ [key]) with (folderPath :: (anc' ++ [key])).
    rewrite join_cons; [done|]. by destruct anc'.
Qed.

Lemma folder_listing_is_category_witness :
  (∀ r, r ∈ getSnippetsInFolder hello_library "B" →
        Entry.category (snippet r) = "B") ∧
  ("B" ≠ "Root" →
   ∀ k e, (k, e) ∈ Object_entries (flatSnippets hello_library) →
          Entry.category e = "B" →
          located (k, e) ∈ getSnippetsInFolder hello_library "B").
Proof.
  apply (folder_listing_is_category hello_entries hello_library "B");
    [reflexivity | reflexivity | reflexivity | discriminate].
Defined.

(** ** Categories of the entries *)

(** X17: in a constructed index the category of an entry is the first
    segment of its path, or "Root" when the entry has one segment only
    or when the first segment is empty; the subcategory is the second
    segment when the path has at least three segments and the second is
    not empty, and is null otherwise.  No category is empty. *)
Theorem entry_category_from_path entries this i k e :
  constructor {| snippets := Some entries |} = Returned this →
  Object_entries (flatSnippets this) !! i = Some (k, e) →
  Entry.category e ≠ "" ∧
  match Entry.path e with
  | [] => False
  | [_] => Entry.category e = "Root" ∧ Entry.subcategory e = None
  | [a; _] =>
      Entry.category e = (if decide (a = "") then "Root" else a) ∧
      Entry.subcategory e = None
  | a :: b :: _ =>
      Entry.category e = (if decide (a = "") then "Root" else a) ∧
      Entry.subcategory e = (if decide (b = "") then None else Some b)
  end.
Proof.
  intros Hthis Hin%list_elem_of_lookup_2.
  destruct (constructor_entry_origin _ _ _ _ Hthis Hin)
    as (anc & key & value & _ & _ & ->). simpl.
  unfold category_of, subcategory_of.
  destruct anc as [|a [|b [|c anc]]]; simpl; repeat case_decide; done.
Qed.

Lemma entry_category_from_path_witness :
  Entry.category hello_world_entry ≠ "" ∧
  match Entry.path hello_world_entry with
  | [] => False
  | [_] => Entry.category hello_world_entry = "Root" ∧
           Entry.subcategory hello_world_entry = None
  | [a; _] =>
      Entry.category hello_world_entry
        = (if decide (a = "") then "Root" else a) ∧
      Entry.subcategory hello_world_entry = None
  | a :: b :: _ =>
      Entry.category hello_world_entry
        = (if decide (a = "") then "Root" else a) ∧
      Entry.subcategory hello_world_entry
        = (if decide (b = "") then None else Some b)
  end.
Proof.
  apply (entry_category_from_path hello_entries hello_library 1
           "B/C/Hello World" hello_world_entry); reflexivity.
Defined.

(** ** A search without a match *)

Lemma matching_nil query options entries :
  matching query options entries = [] ↔
  ∀ kv, kv ∈ entries → passes query options kv = false.
Proof.
  unfold matching. split.
  - intros Hnil kv Hin. apply not_true_is_false. intros Hpass.
    by apply (filter_nil_not_elem_of _ _ kv Hnil).
  - induction entries as [|kv l IH]; intros Hnone; [done|].
    rewrite filter_cons_False; [|by rewrite Hnone; [|left]].
    apply IH. intros kv' Hin. apply Hnone. by right.
Qed.

(** X18: with a positive [maxResults], a search on an index whose
    entries carry their strings returns the empty list exactly when no
    entry passes the search predicate. *)
Theorem search_empty_iff_no_match this query options :
  strings_defined (Object_entries (flatSnippets this)) = true →
  (0 < default 20 (Options.maxResults options))%Z →
  searchSnippets this query options = Returned [] ↔
  ∀ kv, kv ∈ Object_entries (flatSnippets this) →
        passes query options kv = false.
Proof.
  intros Hdef Hpos. rewrite searchSnippets_capped by done.
  set (found := matching query options (Object_entries (flatSnippets this))).
  pose proof (matching_nil query options (Object_entries (flatSnippets this)))
    as Hfound. fold found in Hfound.
  rewrite <-Hfound. split.
  - intros [= Hsort].
    assert (Hnil : take (Z.to_nat (default 20%Z (Options.maxResults options)))
                     (result_of query <$> found) = []).
    { apply Permutation_nil_r. by rewrite <-Hsort, Array_sort_perm. }
    apply take_nil_inv in Hnil as [?|Hnil]; [lia|].
    by apply fmap_nil_inv in Hnil.
  - intros Hnil. by rewrite Hnil, fmap_nil, take_nil.
Qed.

Lemma search_empty_iff_no_match_witness :
  searchSnippets hello_library "zzz" Options.empty = Returned [] ↔
  ∀ kv, kv ∈ Object_entries (flatSnippets hello_library) →
        passes "zzz" Options.empty kv = false.
Proof.
  apply (search_empty_iff_no_match hello_library "zzz" Options.empty);
    reflexivity.
Defined.

(** ** Enumeration order of the index *)

Section KeyOrder.
Context {V : Type}.
Implicit Types (o : obj V) (k : string) (v : V).

Lemma key_before_trans k1 k2 k3 :
  key_before k1 k2 → key_before k2 k3 → key_before k1 k3.
Proof.
  unfold key_before.
  destruct (array_index k1), (array_index k2), (array_index k3); try done.
  lia.
Qed.

Lemma obj_insert_index_ordered n k v o :
  array_index k = Some n →
  StronglySorted key_before o.*1 →
  StronglySorted key_before (obj_insert_index n k v o).*1.
Proof.
  intros Hk. induction o as [|[k' v'] o IH]; csimpl; intros Hsorted.
  - repeat constructor.
  - apply StronglySorted_inv in Hsorted as [Hrest Hfirst].
    assert (Hfront : key_before k k' →
              StronglySorted key_before (k :: k' :: o.*1)).
    { intros Hkk'. constructor; [by constructor|]. constructor; [done|].
      eapply Forall_impl; [exact Hfirst|]. intros k''.
      by apply key_before_trans. }
    destruct (array_index k') as [n'|] eqn:Hk'.
    + destruct (N.ltb_spec n' n) as [Hlt|Hge]; csimpl.
      * constructor; [by apply IH|].
        rewrite obj_insert_index_perm. csimpl. constructor; [|done].
        unfold key_before. rewrite Hk', Hk. lia.
      * apply Hfront. unfold key_before. by rewrite Hk', Hk.
    + csimpl. apply Hfront. unfold key_before. by rewrite Hk', Hk.
Qed.

Lemma obj_set_ordered k v o :
  StronglySorted key_before o.*1 →
  StronglySorted key_before (obj_set k v o).*1.
Proof.
  intros Hsorted. unfold obj_set. case_decide; [done|].
  destruct (obj_has k o); [by rewrite obj_update_keys|].
  destruct (array_index k) as [n|] eqn:Hk.
  - by apply obj_insert_index_ordered.
  - rewrite fmap_app. csimpl. clear -Hsorted Hk.
    induction o as [|[k' v'] o IH]; csimpl in *; [repeat constructor|].
    apply StronglySorted_inv in Hsorted as [Hrest Hfirst].
    constructor; [by apply IH|]. apply Forall_app. split; [done|].
    constructor; [|done]. unfold key_before. rewrite Hk.
    by destruct (array_index k').
Qed.
End KeyOrder.

(** X19: the index enumerates the entries whose path string is an array
    index (a top-level snippet under a canonical numeric key) before
    all others, in ascending numeric order, wherever the document has
    them; a search scans them first. *)
Theorem flat_index_key_order jsonData this :
  constructor jsonData = Returned this →
  StronglySorted key_before (Object_entries (flatSnippets this)).*1.
Proof.
  unfold constructor. destruct (snippets jsonData) as [entries|]; [|done].
  intros [= <-]. simpl. unfold Object_entries.
  rewrite (proj2 flattenSnippets_assign_all).
  generalize (visited entries []) as l.
  assert (Hstart : StronglySorted key_before (@nil (string * IndexEntry)).*1)
    by constructor.
  revert Hstart. generalize (@nil (string * IndexEntry)) as result.
  intros result Hresult l. revert result Hresult.
  induction l as [|s l IH]; intros result Hresult; [done|].
  unfold assign_all in *. simpl. by apply IH, obj_set_ordered.
Qed.

Lemma flat_index_key_order_witness :
  constructor {| snippets := Some numbered_entries |}
    = Returned {| data := {| snippets := Some numbered_entries |};
                  flatSnippets := flattenSnippets numbered_entries [] [] |} ∧
  (flattenSnippets numbered_entries [] []).*1 = ["2"; "10"; "b"; "01"] ∧
  StronglySorted key_before
    (Object_entries (flattenSnippets numbered_entries [] [])).*1.
Proof.
  split; [reflexivity|]. split; [reflexivity|].
  apply (flat_index_key_order {| snippets := Some numbered_entries |}
           {| data := {| snippets := Some numbered_entries |};
              flatSnippets := flattenSnippets numbered_entries [] [] |}).
  reflexivity.
Defined.

(** ** Paths in the menu *)

Lemma well_nested_folder prefix label path children :
  well_nested prefix (MenuFolder label path children) ↔
  path = prefix ++ [label] ∧ Forall (well_nested path) children.
Proof.
  simpl. apply and_iff_compat_l.
  induction children as [|i rest IH]; [by split; [constructor|]|].
  rewrite Forall_cons, IH. done.
Qed.

(** X20: every menu that [generateMenuStructure] returns is well
    nested: the path of an item is the path of the call, or of the
    enclosing folder item, and one more segment, a folder item is
    labelled by that segment, and a snippet item has the category of
    the entries indexed from the same place. *)
Theorem generateMenuStructure_well_nested depth this obj path menu :
  generateMenuStructure depth this obj path = Returned menu →
  Forall (well_nested path) menu.
Proof.
  revert obj path menu. induction depth as [|depth IH]; intros obj path menu;
    [done|].
  simpl. destruct (match obj with Some _ => _ | None => _ end) as [entries|];
    [|done].
  assert (Hstart : Forall (well_nested path) []) by constructor.
  revert Hstart. generalize (@nil MenuItem) as acc. revert menu.
  induction entries as [|[key value] rest IHrest]; intros menu acc Hacc; simpl.
  - by intros [= <-].
  - destruct (menu_push _ key value path acc) as [acc'|] eqn:Hpush; [|done].
    simpl. apply IHrest. unfold menu_push in Hpush.
    repeat case_decide.
    + destruct (generateMenuStructure depth this _ _) as [children|] eqn:Hrec;
        [|done].
      injection Hpush as <-. apply Forall_app. split; [done|].
      constructor; [|done]. apply well_nested_folder. split; [done|].
      by eapply IH.
    + injection Hpush as <-. apply Forall_app. split; [done|].
      constructor; [|done]. simpl. split; [by eexists|done].
    + by injection Hpush as <-.
Qed.

Lemma generateMenuStructure_well_nested_witness :
  Forall (well_nested [])
    [MenuFolder "A" ["A"]
       [MenuSnippet (Some "Hello") ["A"; "Hello"] (Some "x") "A"];
     MenuFolder "B" ["B"]
       [MenuFolder "C" ["B"; "C"]
          [MenuSnippet (Some "Hello World") ["B"; "C"; "Hello World"]
             (Some "y") "B"]]].
Proof.
  apply (generateMenuStructure_well_nested 4 hello_library None []).
  reflexivity.
Defined.

(** ** Ranking *)

Lemma StronglySorted_lookup {A} (R : A → A → Prop) l i j x y :
  StronglySorted R l → i < j → l !! i = Some x → l !! j = Some y → R x y.
Proof.
  intros Hsorted. revert i j. induction Hsorted as [|z l Hl IH Hz];
    intros i j Hij Hi Hj; [done|].
  destruct j as [|j]; [lia|]. simpl in Hj. destruct i as [|i]; simpl in Hi.
  - injection Hi as ->. rewrite Forall_forall in Hz.
    by eapply Hz, list_elem_of_lookup_2.
  - apply (IH i j); [lia|done..].
Qed.

Lemma searchSnippets_scored this query options results i r :
  searchSnippets this query options = Returned results →
  results !! i = Some r →
  ∃ name, Entry.name (snippet (hit r)) = Some name ∧
          score r = spec_score name (fullPath (hit r)) query.
Proof.
  unfold searchSnippets. intros Hsearch Hr.
  destruct (search_loop _ _ _ _ _ _) as [found|] eqn:Hloop; [|done].
  cbn [bind] in Hsearch. injection Hsearch as <-.
  apply search_loop_sound in Hloop as (pushed & -> & Hpushed).
  apply list_elem_of_lookup_2 in Hr. rewrite Array_sort_perm in Hr.
  rewrite Forall_forall in Hpushed.
  destruct (Hpushed _ Hr) as (_ & Heq & [name Hname]).
  exists name. split; [done|].
  rewrite Heq at 1. simpl. unfold score_of. simpl. by rewrite Hname.
Qed.

(** X21: in the results of a search a result whose name equals the
    query, letter case apart, stands before every result whose name
    does not, unless its path string has at least 25 segments more. *)
Theorem exact_match_ranks_first this query options results i j r1 r2 :
  searchSnippets this query options = Returned results →
  results !! i = Some r1 → results !! j = Some r2 →
  exact_match query r1 = true → exact_match query r2 = false →
  segment_count (fullPath (hit r1)) < segment_count (fullPath (hit r2)) + 25 →
  (score r2 < score r1)%Z ∧ i < j.
Proof.
  intros Hsearch H1 H2 Hexact1 Hexact2 Hsegs.
  destruct (searchSnippets_scored _ _ _ _ _ _ Hsearch H1) as (n1 & Hn1 & Hs1).
  destruct (searchSnippets_scored _ _ _ _ _ _ Hsearch H2) as (n2 & Hn2 & Hs2).
  unfold exact_match in *. rewrite Hn1 in Hexact1. rewrite Hn2 in Hexact2.
  assert (Hlt : (score r2 < score r1)%Z).
  { rewrite Hs1, Hs2. unfold spec_score. rewrite Hexact1, Hexact2.
    destruct (contains_ci n2 query), (contains_ci (fullPath (hit r1)) query),
      (contains_ci (fullPath (hit r2)) query); lia. }
  split; [done|].
  assert (Hsorted : StronglySorted descending results).
  { unfold searchSnippets in Hsearch.
    destruct (search_loop _ _ _ _ _ _); [|done]. cbn [bind] in Hsearch.
    injection Hsearch as <-. apply Array_sort_descending. }
  destruct (Nat.lt_trichotomy i j) as [?|[->|Hji]]; [done| |].
  - rewrite H1 in H2. injection H2 as ->. lia.
  - pose proof (StronglySorted_lookup _ _ _ _ _ _ Hsorted Hji H2 H1) as Hdesc.
    unfold descending in Hdesc. lia.
Qed.

Lemma exact_match_ranks_first_witness :
  (score (scored ("B/C/Hello World", hello_world_entry) 72)
   < score (scored ("A/Hello", hello_entry) 123))%Z ∧ 0 < 1.
Proof.
  apply (exact_match_ranks_first hello_library_swapped "Hello" Options.empty
           [scored ("A/Hello", hello_entry) 123;
            scored ("B/C/Hello World", hello_world_entry) 72] 0 1);
    [reflexivity | reflexivity | reflexivity | reflexivity | reflexivity
    | vm_compute; lia].
Defined.

(** ** Which queries can fail *)

(** The document on which [getStats()] fails is valid: its nodes are
    well-formed, sibling keys are unique, and no key holds a slash or
    is ["__proto__"]. *)
Lemma toString_entries_valid :
  well_formed toString_entries = true ∧
  sibling_keys_unique toString_entries = true ∧
  keys_slash_free toString_entries = true ∧
  no_proto_path toString_entries = true.
Proof. repeat split; reflexivity. Qed.

(** C9, amended: on the index built from a document of well-formed
    nodes the search never fails: it returns a result list for every
    query and every options object, a negative [maxResults] included.
    Random selection returns whenever the random index lies within the
    candidates, and [getStats()] returns when no entry with a
    subcategory has a category named like a property inherited from
    [Object.prototype]. *)
Theorem queries_return entries :
  well_formed entries = true →
  ∃ this,
    constructor {| snippets := Some entries |} = Returned this ∧
    (∀ query options, ∃ results,
       searchSnippets this query options = Returned results) ∧
    (∀ random category, (∀ n, 0 < n → random n < n) →
       ∃ picked, getRandomSnippet random this category = Returned picked) ∧
    ((∀ k e sub, (k, e) ∈ Object_entries (flatSnippets this) →
                 Entry.subcategory e = Some sub → sub ≠ "" →
                 inherited (Entry.category e) = false) →
     ∃ stats, getStats this = Returned stats).
Proof.
  intros Hwf. eexists. split; [reflexivity|].
  set (this := {| data := {| snippets := Some entries |};
                  flatSnippets := flattenSnippets entries [] [] |}).
  split_and!.
  - intros query options.
    destruct (searchSnippets_candidates this query options)
      as (candidates & Heq & _); [|by eauto].
    by apply flattenSnippets_strings_defined.
  - intros random category Hrandom.
    destruct (getRandomSnippet_candidates random this category)
      as (candidates & _ & ->).
    case_decide as Hlen; [by eexists|].
    destruct (lookup_lt_is_Some_2 candidates (random (length candidates)))
      as [kv ->]; [apply Hrandom; lia|]. by eexists.
  - intros Hcat. pose proof (getStats_outcome this) as Hout.
    destruct (existsb stats_trap _) eqn:Htrap.
    + apply existsb_stats_trap in Htrap as (e & Hin & Hinh & sub & Hsub & Hne).
      apply list_elem_of_fmap in Hin as ([k e'] & -> & Hin).
      specialize (Hcat k e' sub Hin Hsub Hne). simpl in Hinh. congruence.
    + destruct Hout as (total & cats & -> & _). by eexists.
Qed.

Lemma queries_return_witness :
  ∃ this,
    constructor hello_document = Returned this ∧
    (∀ query options, ∃ results,
       searchSnippets this query options = Returned results) ∧
    (∀ random category, (∀ n, 0 < n → random n < n) →
       ∃ picked, getRandomSnippet random this category = Returned picked) ∧
    ((∀ k e sub, (k, e) ∈ Object_entries (flatSnippets this) →
                 Entry.subcategory e = Some sub → sub ≠ "" →
                 inherited (Entry.category e) = false) →
     ∃ stats, getStats this = Returned stats).
Proof.
  apply (queries_return
           [("A", folder_node [("Hello", snippet_node "Hello" "x")]);
            ("B", folder_node
                    [("C", folder_node
                             [("Hello World", snippet_node "Hello World" "y")])])]).
  reflexivity.
Defined.
